(** * A caching forward proxy: the byte-bounded LRU cache and its request pipeline

    Shallow embedding of [backend/src/cache/LRUCache.ts] and of the [/proxy]
    branch of [ProxyServer.handleRequest] / [ProxyServer.makeProxyRequest].

    Conventions of the embedding.
    - A JavaScript object reference is an index into an object store (the
      field [heap] of the cache record); the store only grows, which models a
      garbage-collected heap in which a reference never dangles.  The cache
      elements are mutated in place through their references, so aliasing
      between the map index and the linked list is kept as it is in the source.
    - JavaScript numbers holding byte counts and counters are integers ([Z]).
    - A URL string is the sequence of its UTF-8 bytes, so [Buffer.byteLength]
      is the length of the string.
    - [Date.now()] and [new Date().toISOString()] are inputs of the operations.
    - Every public operation runs inside [lock], which serialises the
      operations of the cache; each operation is therefore one atomic state
      transformer.  Calls to [Logger] only write to the log and are omitted.
    - The [while] loop of [add] is run with fuel; [None] means that the fuel
      ran out before the loop condition became false. *)

From Stdlib Require Import ZArith QArith Strings.Byte Strings.Ascii.
From stdpp Require Import gmap strings list.

Close Scope Q_scope.

(** ** Object references and cache elements (cache/types.ts) *)

(** A reference is the index of an object in the store; a Buffer is its
    bytes. *)
Abbreviation ref := nat (only parsing).

Abbreviation Buffer := (list byte) (only parsing).

Module CacheElement.
Record t := mk {
  timestamp : string;
  data : Buffer;
  length : Z;
  url : string;
  lruTimeTrack : Z;
  next : option ref;
  prev : option ref
}.

Definition with_next (v : option ref) (e : t) : t :=
  mk (timestamp e) (data e) (length e) (url e) (lruTimeTrack e) v (prev e).
Definition with_prev (v : option ref) (e : t) : t :=
  mk (timestamp e) (data e) (length e) (url e) (lruTimeTrack e) (next e) v.
Definition with_lruTimeTrack (v : Z) (e : t) : t :=
  mk (timestamp e) (data e) (length e) (url e) v (next e) (prev e).
End CacheElement.

(** [Buffer.byteLength(s)] on a string held as its UTF-8 bytes. *)
Definition byteLength (s : string) : Z := Z.of_nat (String.length s).

(** [data.length] of a Buffer. *)
Definition bufferLength (b : Buffer) : Z := Z.of_nat (Datatypes.length b).

(** The size the cache accounts for an element: [length + byteLength(url)]. *)
Definition accounted (e : CacheElement.t) : Z :=
  (CacheElement.length e + byteLength (CacheElement.url e))%Z.

(** ** config/constants.ts *)

Module CONFIG.
Definition CACHE_SIZE : Z := (200 * 1024 * 1024)%Z.
Definition MAX_ELEMENT_SIZE : Z := (10 * 1024 * 1024)%Z.
End CONFIG.

(** ** The cache object (class LRUCache) *)

Module LRUCache.
Record t := mk {
  head : option ref;
  tail : option ref;
  cacheMap : gmap string ref;
  cacheSize : Z;
  maxSize : Z;
  maxElementSize : Z;
  hits : Z;
  misses : Z;
  heap : list CacheElement.t
}.

Definition with_head (v : option ref) (c : t) : t :=
  mk v (tail c) (cacheMap c) (cacheSize c) (maxSize c) (maxElementSize c)
     (hits c) (misses c) (heap c).
Definition with_tail (v : option ref) (c : t) : t :=
  mk (head c) v (cacheMap c) (cacheSize c) (maxSize c) (maxElementSize c)
     (hits c) (misses c) (heap c).
Definition with_cacheMap (v : gmap string ref) (c : t) : t :=
  mk (head c) (tail c) v (cacheSize c) (maxSize c) (maxElementSize c)
     (hits c) (misses c) (heap c).
Definition with_cacheSize (v : Z) (c : t) : t :=
  mk (head c) (tail c) (cacheMap c) v (maxSize c) (maxElementSize c)
     (hits c) (misses c) (heap c).
Definition with_hits (v : Z) (c : t) : t :=
  mk (head c) (tail c) (cacheMap c) (cacheSize c) (maxSize c)
     (maxElementSize c) v (misses c) (heap c).
Definition with_misses (v : Z) (c : t) : t :=
  mk (head c) (tail c) (cacheMap c) (cacheSize c) (maxSize c)
     (maxElementSize c) (hits c) v (heap c).
Definition with_heap (v : list CacheElement.t) (c : t) : t :=
  mk (head c) (tail c) (cacheMap c) (cacheSize c) (maxSize c)
     (maxElementSize c) (hits c) (misses c) v.
End LRUCache.

Import LRUCache.

(** The field initialisers of the class, with the two readonly limits as
    parameters; [newLRUCache] is the constructor, which reads them from
    [CONFIG]. *)
Definition emptyCache (maxSize maxElementSize : Z) : LRUCache.t :=
  LRUCache.mk None None ∅ 0 maxSize maxElementSize 0 0 [].

Definition newLRUCache : LRUCache.t :=
  emptyCache CONFIG.CACHE_SIZE CONFIG.MAX_ELEMENT_SIZE.

(** *** Field access through a reference *)

(** Reads and writes of the pointer fields, on the object store. *)
Definition nextOf (h : list CacheElement.t) (r : ref) : option ref :=
  h !! r ≫= CacheElement.next.

Definition prevOf (h : list CacheElement.t) (r : ref) : option ref :=
  h !! r ≫= CacheElement.prev.

Definition setNext (r : ref) (v : option ref) (h : list CacheElement.t)
  : list CacheElement.t :=
  alter (CacheElement.with_next v) r h.

Definition setPrev (r : ref) (v : option ref) (h : list CacheElement.t)
  : list CacheElement.t :=
  alter (CacheElement.with_prev v) r h.

Definition setLruTimeTrack (r : ref) (v : Z) (h : list CacheElement.t)
  : list CacheElement.t :=
  alter (CacheElement.with_lruTimeTrack v) r h.

(** The same on the store of a cache: [deref c r] is the object behind [r],
    [next_of c r] is [r.next], [set_next r v c] is [r.next = v]. *)
Abbreviation deref c r := (heap c !! r) (only parsing).
Abbreviation next_of c r := (nextOf (heap c) r) (only parsing).
Abbreviation prev_of c r := (prevOf (heap c) r) (only parsing).

Definition set_next (r : ref) (v : option ref) (c : LRUCache.t) : LRUCache.t :=
  with_heap (setNext r v (heap c)) c.

Definition set_prev (r : ref) (v : option ref) (c : LRUCache.t) : LRUCache.t :=
  with_heap (setPrev r v (heap c)) c.

Definition set_lruTimeTrack (r : ref) (v : Z) (c : LRUCache.t) : LRUCache.t :=
  with_heap (setLruTimeTrack r v (heap c)) c.

(** Allocation of a fresh object: its reference is the next free index. *)
Definition alloc (e : CacheElement.t) (c : LRUCache.t) : ref * LRUCache.t :=
  (Datatypes.length (heap c), with_heap (heap c ++ [e]) c).

(** *** moveToFront *)

Definition moveToFront (element : ref) (c : LRUCache.t) : LRUCache.t :=
  if decide (head c = Some element) then c
  else
    (* Unlink from current position *)
    let c := match prev_of c element with
             | Some p => set_next p (next_of c element) c
             | None => c
             end in
    let c := match next_of c element with
             | Some n => set_prev n (prev_of c element) c
             | None => c
             end in
    let c := if decide (tail c = Some element)
             then with_tail (prev_of c element) c else c in
    (* Link to front *)
    let c := set_next element (head c) c in
    let c := set_prev element None c in
    let c := match head c with
             | Some h => set_prev h (Some element) c
             | None => c
             end in
    let c := with_head (Some element) c in
    match tail c with
    | None => with_tail (Some element) c
    | Some _ => c
    end.

(** The two phases of [moveToFront], as the comments of the source name
    them: "Unlink from current position" and "Link to front". *)
Definition unlinkPhase (element : ref) (c : LRUCache.t) : LRUCache.t :=
  let c := match prev_of c element with
           | Some p => set_next p (next_of c element) c
           | None => c
           end in
  let c := match next_of c element with
           | Some n => set_prev n (prev_of c element) c
           | None => c
           end in
  if decide (tail c = Some element)
  then with_tail (prev_of c element) c else c.

Definition linkPhase (element : ref) (c : LRUCache.t) : LRUCache.t :=
  let c := set_next element (head c) c in
  let c := set_prev element None c in
  let c := match head c with
           | Some h => set_prev h (Some element) c
           | None => c
           end in
  let c := with_head (Some element) c in
  match tail c with
  | None => with_tail (Some element) c
  | Some _ => c
  end.

(** *** find *)

Definition find (now : Z) (url : string) (c : LRUCache.t)
  : option ref * LRUCache.t :=
  match cacheMap c !! url with
  | Some element =>
      let c := with_hits (hits c + 1) c in
      let c := set_lruTimeTrack element now c in
      let c := moveToFront element c in
      (Some element, c)
  | None =>
      let c := with_misses (misses c + 1) c in
      (None, c)
  end.

(** *** removeLRU *)

Definition removeLRU (c : LRUCache.t) : LRUCache.t :=
  match tail c with
  | None => c
  | Some lruElement =>
      match deref c lruElement with
      | None => c
      | Some lru =>
          (* Update list pointers *)
          let c := with_tail (CacheElement.prev lru) c in
          let c := match tail c with
                   | Some t => set_next t None c
                   | None => with_head None c
                   end in
          (* Remove from map and update size *)
          let c := with_cacheMap (delete (CacheElement.url lru) (cacheMap c)) c in
          with_cacheSize (cacheSize c - accounted lru) c
      end
  end.

(** *** add *)

(** [while (this.cacheSize + elementSize > this.maxSize) await this.removeLRU()] *)
Fixpoint ensureSpace (fuel : nat) (elementSize : Z) (c : LRUCache.t)
  : option LRUCache.t :=
  if (cacheSize c + elementSize >? maxSize c)%Z then
    match fuel with
    | O => None
    | S fuel' => ensureSpace fuel' elementSize (removeLRU c)
    end
  else Some c.

(** The part of [add] after the loop: create the element and link it. *)
Definition insertFront (now : Z) (iso : string) (data : Buffer) (url : string)
    (elementSize : Z) (c : LRUCache.t) : LRUCache.t :=
  let '(element, c) :=
    alloc (CacheElement.mk iso data (bufferLength data) url now None None) c in
  let c := with_cacheMap (<[url := element]> (cacheMap c)) c in
  let c := with_cacheSize (cacheSize c + elementSize) c in
  (* Add to front of list *)
  match head c with
  | None => with_tail (Some element) (with_head (Some element) c)
  | Some h =>
      let c := set_next element (Some h) c in
      let c := set_prev h (Some element) c in
      with_head (Some element) c
  end.

(** The removal of an existing entry for the same URL, as [add] does it. *)
Definition removeExisting (url : string) (c : LRUCache.t) : LRUCache.t :=
  match cacheMap c !! url with
  | Some existing =>
      match deref c existing with
      | Some ex =>
          let c := with_cacheSize (cacheSize c - accounted ex) c in
          with_cacheMap (delete url (cacheMap c)) c
      | None => c
      end
  | None => c
  end.

Definition add (fuel : nat) (now : Z) (iso : string) (data : Buffer)
    (url : string) (c : LRUCache.t) : option (bool * LRUCache.t) :=
  let elementSize := (bufferLength data + byteLength url)%Z in
  (* Check size constraints *)
  if (elementSize >? maxElementSize c)%Z then Some (false, c)
  else
    (* Remove existing entry if present *)
    let c := removeExisting url c in
    (* Ensure space available *)
    match ensureSpace fuel elementSize c with
    | None => None
    | Some c =>
        (* Create and add new element *)
        Some (true, insertFront now iso data url elementSize c)
    end.

(** *** clear *)

Definition clear (c : LRUCache.t) : LRUCache.t :=
  let c := with_head None c in
  let c := with_tail None c in
  let c := with_cacheMap ∅ c in
  let c := with_cacheSize 0 c in
  let c := with_hits 0 c in
  with_misses 0 c.

(** ** Observing the linked list *)

(** The references met when following [next] from [p], at most [fuel] of them. *)
Fixpoint walk (fuel : nat) (h : list CacheElement.t) (p : option ref) : list ref :=
  match fuel, p with
  | S fuel', Some r => r :: walk fuel' h (nextOf h r)
  | _, _ => []
  end.

(** The list from [head] to the end, most recently used first.  An acyclic
    chain visits each object of the store at most once, so the size of the
    store is enough fuel. *)
Definition listOrder (c : LRUCache.t) : list ref :=
  walk (Datatypes.length (heap c)) (heap c) (head c).

(** The URLs of a list of references, in order. *)
Definition urlsOf (c : LRUCache.t) (l : list ref) : list string :=
  omap (λ r, CacheElement.url <$> deref c r) l.

(** The bytes accounted for a list of references. *)
Definition bytesOf (h : list CacheElement.t) (l : list ref) : Z :=
  foldr (λ r acc, (from_option accounted 0 (h !! r) + acc)%Z) 0%Z l.

(** The elements the map index holds, as (url, reference) pairs. *)
Definition indexEntries (c : LRUCache.t) : list (string * ref) :=
  map_to_list (cacheMap c).

(** The bytes accounted for the elements of the map index. *)
Definition indexBytes (c : LRUCache.t) : Z :=
  bytesOf (heap c) (snd <$> indexEntries c).

(** ** The doubly-linked list as a predicate on the store *)

(** [dll c l]: the list of [c] is [l], head first: [head] and [tail] are its
    ends, every member is an object of the store, and [next] and [prev] are
    the neighbours in [l]. *)
Record dll (c : LRUCache.t) (l : list ref) : Prop := {
  dll_nodup : NoDup l;
  dll_head : head c = l !! 0%nat;
  dll_tail : tail c = last l;
  dll_alloc : ∀ r, r ∈ l → is_Some (deref c r);
  dll_next : ∀ i r, l !! i = Some r → next_of c r = l !! S i;
  dll_prev : ∀ i r, l !! i = Some r →
             prev_of c r = match i with O => None | S j => l !! j end
}.

(** The fields of an element that no operation of the cache writes after
    the element is created. *)
Definition content (e : CacheElement.t) : string * list byte * Z * string :=
  (CacheElement.timestamp e, CacheElement.data e, CacheElement.length e,
   CacheElement.url e).

Definition contentOf (h : list CacheElement.t) (r : ref) :=
  content <$> h !! r.

Abbreviation content_of c r := (contentOf (heap c) r) (only parsing).

(** [r.lruTimeTrack], when [r] is an object of the store. *)
Definition lruOf (h : list CacheElement.t) (r : ref) : option Z :=
  CacheElement.lruTimeTrack <$> h !! r.

(** The elements of [l] have a [length] that is the size of their data. *)
Definition lengths_ok (h : list CacheElement.t) (l : list ref) : Prop :=
  ∀ r e, r ∈ l → h !! r = Some e →
         CacheElement.length e = bufferLength (CacheElement.data e).

(** A decidable form of [dll], for concrete states. *)
Definition dll_checked (c : LRUCache.t) (l : list ref) : Prop :=
  NoDup l ∧ head c = l !! 0%nat ∧ tail c = last l ∧
  Forall (λ ir : nat * ref,
            is_Some (deref c ir.2) ∧
            next_of c ir.2 = l !! S ir.1 ∧
            prev_of c ir.2 = match ir.1 with O => None | S j => l !! j end)
         (imap pair l).

(** ** Well-formed states and the invariants of the data model *)

(** The pointers of the store form the list that [listOrder] reads. *)
Definition well_linked (c : LRUCache.t) : Prop := dll c (listOrder c).

(** The invariants that the data model states for the cache between
    operations: (1) an element is in the index exactly when it is in the list,
    (2) [cacheSize] is the sum of the accounted sizes, (3) it is within
    [maxSize], (4) every element is within [maxElementSize], (5) the list is
    well formed; and [length] is the size of [data].  That [head], [tail] and
    the index are empty together follows from (1) and (5). *)
Record Invariants (c : LRUCache.t) : Prop := {
  inv_membership : ∀ r, r ∈ listOrder c ↔ ∃ u, cacheMap c !! u = Some r;
  inv_bytes : cacheSize c = bytesOf (heap c) (listOrder c);
  inv_capacity : (cacheSize c ≤ maxSize c)%Z;
  inv_entry : ∀ r e, r ∈ listOrder c → deref c r = Some e →
              (accounted e ≤ maxElementSize c)%Z;
  inv_linked : well_linked c;
  inv_length : ∀ r e, r ∈ listOrder c → deref c r = Some e →
               CacheElement.length e = bufferLength (CacheElement.data e)
}.

(** A decidable form of [Invariants], for concrete states. *)
Definition Invariants_checked (c : LRUCache.t) : Prop :=
  dll_checked c (listOrder c) ∧
  Forall (λ r, r ∈ (snd <$> map_to_list (cacheMap c))) (listOrder c) ∧
  map_Forall (λ _ r, r ∈ listOrder c) (cacheMap c) ∧
  cacheSize c = bytesOf (heap c) (listOrder c) ∧
  (cacheSize c ≤ maxSize c)%Z ∧
  Forall (λ e, (accounted e ≤ maxElementSize c)%Z ∧
               CacheElement.length e = bufferLength (CacheElement.data e))
         (omap (λ r, deref c r) (listOrder c)).



(** The index points into the list [l], each element under its own URL. *)
Definition index_ok (c : LRUCache.t) (l : list ref) : Prop :=
  ∀ u r, cacheMap c !! u = Some r →
         r ∈ l ∧ CacheElement.url <$> deref c r = Some u.

(** Every object of the store has a [length] that is the size of its data. *)
Definition heap_lengths_ok (h : list CacheElement.t) : Prop :=
  ∀ r e, h !! r = Some e →
         CacheElement.length e = bufferLength (CacheElement.data e).

(** What every state reached from an empty cache satisfies: the limits are
    configured with
    [0 ≤ maxSize] and [maxElementSize ≤ maxSize], the list is well formed, the index
    points into the list under the element's own URL, [length] is the size of
    [data], and [cacheSize] is bounded by the bytes of the list and by
    [maxSize]. *)
Record Consistent (c : LRUCache.t) : Prop := {
  con_config : (0 ≤ maxSize c)%Z ∧ (maxElementSize c ≤ maxSize c)%Z;
  con_linked : well_linked c;
  con_index : index_ok c (listOrder c);
  con_length : heap_lengths_ok (heap c);
  con_bytes : (cacheSize c ≤ bytesOf (heap c) (listOrder c))%Z;
  con_capacity : (cacheSize c ≤ maxSize c)%Z
}.

(** ** Sequences of operations *)

Inductive Op :=
| OpAdd (now : Z) (iso : string) (data : list byte) (url : string)
| OpFind (now : Z) (url : string)
| OpClear.

Definition step (fuel : nat) (op : Op) (c : LRUCache.t) : option LRUCache.t :=
  match op with
  | OpAdd now iso data url => snd <$> add fuel now iso data url c
  | OpFind now url => Some (find now url c).2
  | OpClear => Some (clear c)
  end.

Fixpoint run (fuel : nat) (ops : list Op) (c : LRUCache.t) : option LRUCache.t :=
  match ops with
  | [] => Some c
  | op :: ops' => step fuel op c ≫= run fuel ops'
  end.


(** A payload of [n] bytes, for the scenarios. *)
Definition payload (n : nat) : list byte := replicate n x00.

(** Three 100-byte entries under the keys a, b, c, inserted in that order
    into an empty cache with the given limits. *)
Definition threeEntries (maxSize maxElementSize : Z) : option LRUCache.t :=
  run 8 [OpAdd 1 "t1" (payload 100) "a"; OpAdd 2 "t2" (payload 100) "b";
         OpAdd 3 "t3" (payload 100) "c"]
      (emptyCache maxSize maxElementSize).

(** The cascading-eviction scenario: the three entries, a lookup of a, then
    a 140-byte entry under the key d. *)
Definition cascadingScenario (maxSize maxElementSize : Z) : option LRUCache.t :=
  run 8 [OpAdd 1 "t1" (payload 100) "a"; OpAdd 2 "t2" (payload 100) "b";
         OpAdd 3 "t3" (payload 100) "c"; OpFind 4 "a";
         OpAdd 5 "t5" (payload 140) "d"]
      (emptyCache maxSize maxElementSize).

(** Two insertions under the same key. *)
Definition doubleInsert (maxSize maxElementSize : Z) : option LRUCache.t :=
  run 8 [OpAdd 1 "t1" (payload 100) "a"; OpAdd 2 "t2" (payload 50) "a"]
      (emptyCache maxSize maxElementSize).

(** Two insertions under the same key followed by three under other keys. *)
Definition doubleInsertThenFill (maxSize maxElementSize : Z)
  : option LRUCache.t :=
  run 8 [OpAdd 1 "t1" (payload 100) "a"; OpAdd 2 "t2" (payload 100) "a";
         OpAdd 3 "t3" (payload 100) "b"; OpAdd 4 "t4" (payload 100) "c";
         OpAdd 5 "t5" (payload 100) "d"]
      (emptyCache maxSize maxElementSize).

(** The bytes of the elements of a list of references. *)
Definition dataOf (c : LRUCache.t) (l : list ref) : list (list byte) :=
  omap (λ r, CacheElement.data <$> deref c r) l.

(** ** logStats *)



(** ** The /proxy branch of ProxyServer.handleRequest *)

(** ASCII lower case of a character, for the [i] flag of the regular
    expression. *)
Definition lowerAscii (a : ascii) : ascii :=
  let n := nat_of_ascii a in
  if ((65 <=? n) && (n <=? 90))%nat then ascii_of_nat (n + 32) else a.

(** [s] starts with the lower-case string [p], ignoring the case of [s]. *)
Fixpoint startsWithCI (p s : string) : bool :=
  match p with
  | String.EmptyString => true
  | String.String a p' =>
      match s with
      | String.String b s' => Ascii.eqb a (lowerAscii b) && startsWithCI p' s'
      | String.EmptyString => false
      end
  end.

(** [formattedUrl.match(/^https?:\/\//i)] *)
Definition hasScheme (s : string) : bool :=
  startsWithCI "http://" s || startsWithCI "https://" s.

(** "Ensure URL has protocol": the string that [handleRequest] looks up. *)
Definition formatUrl (targetUrl : string) : string :=
  if hasScheme targetUrl then targetUrl else String.append "http://" targetUrl.

(** The regular expression [/^https?:\/\//i] in words, to compare
    [hasScheme] with: a string matches when it starts with one character of
    each class of [httpClasses], or of [httpsClasses], in turn. *)
Definition httpClasses : list (list ascii) :=
  [["h"; "H"]; ["t"; "T"]; ["t"; "T"]; ["p"; "P"]; [":"]; ["/"]; ["/"]]%char.

Definition httpsClasses : list (list ascii) :=
  [["h"; "H"]; ["t"; "T"]; ["t"; "T"]; ["p"; "P"]; ["s"; "S"];
   [":"]; ["/"]; ["/"]]%char.

Fixpoint startsWithClasses (classes : list (list ascii)) (s : string) : Prop :=
  match classes with
  | [] => True
  | class :: classes' =>
      match s with
      | String.String a s' => In a class ∧ startsWithClasses classes' s'
      | String.EmptyString => False
      end
  end.

Definition matchesSchemeRegex (s : string) : Prop :=
  startsWithClasses httpClasses s ∨ startsWithClasses httpsClasses s.

(** What the origin answered: [proxyRes.statusCode] and the collected body. *)
Record OriginResponse := {
  statusCode : option Z;
  body : list byte
}.

(** Whether [clientRes.writeHead] accepts [s] as the value of a header.  The
    platform throws (ERR_INVALID_CHAR) when a code unit of the value is
    outside the tab, 0x20-0x7e and 0x80-0xff.  On the UTF-8 bytes of the
    string: a byte below 0x80 is the code unit itself, the code points
    0x80-0xff are the two-byte sequences led by 0xc2 or 0xc3, and every other
    lead byte starts a code point above 0xff. *)
Fixpoint legalHeaderValue (s : string) : bool :=
  match s with
  | String.EmptyString => true
  | String.String a s' =>
      let n := nat_of_ascii a in
      if (n <? 128)%nat
      then ((n =? 9)%nat || ((32 <=? n) && (n <=? 126))%nat)
           && legalHeaderValue s'
      else if ((n =? 194) || (n =? 195))%nat
      then match s' with
           | String.String _ s'' => legalHeaderValue s''
           | String.EmptyString => false
           end
      else false
  end.

(** What the client receives.  [Unanswered]: nothing is written to the
    client and the promise of [makeProxyRequest] is never settled. *)
Inductive ClientResponse :=
| CacheHit (data : list byte) (xCacheDate : string) (xCacheLookup : string)
| CacheMiss (status : Z) (data : list byte)
| ErrorEnvelope (statusCode : Z)
| Unanswered.

Section proxy.
(** [new URL(s).href] of the WHATWG URL parser of the platform; [None] when
    the constructor throws. *)
Variable parseHref : string → option string.

(** The origin server: the response to a GET of the parsed URL, [None] when
    the request emits an error. *)
Variable origin : string → option OriginResponse.

(** The key under which [makeProxyRequest] stores the body. *)
Definition storeKey (targetUrl : string) : option string :=
  parseHref (formatUrl targetUrl).

(** One /proxy request, with no other cache operation in between.
    [targetUrl] is [searchParams.get('targetUrl')]; [now] and [now'] are the
    clock at the lookup and at the insertion.

    The headers of both answers carry the scheme-prefixed string as
    [X-Cache-Lookup].  On a hit that string is a key of the index, where the
    server stores under parsed hrefs only, and the platform serialises an
    href in legal header characters.  On a miss it is what the client sent:
    when it is not a legal header value, [writeHead] throws after the body
    was offered to the cache, the [catch] block of the listener calls
    [writeHead] with the same header and throws again, and neither [resolve]
    nor [reject] is reached. *)
Definition handleProxy (fuel : nat) (now now' : Z) (iso : string)
    (targetUrl : option string) (c : LRUCache.t)
  : option (ClientResponse * LRUCache.t) :=
  match targetUrl with
  | None | Some String.EmptyString => Some (ErrorEnvelope 400, c)
  | Some targetUrl =>
      (* Ensure URL has protocol *)
      let formattedUrl := formatUrl targetUrl in
      (* Check cache first *)
      let '(cachedResponse, c) := find now formattedUrl c in
      match cachedResponse with
      | Some r =>
          (* Serve cached response *)
          match deref c r with
          | Some el =>
              Some (CacheHit (CacheElement.data el)
                      (CacheElement.timestamp el) formattedUrl, c)
          | None => Some (ErrorEnvelope 500, c)
          end
      | None =>
          (* Cache miss - make proxy request *)
          match parseHref formattedUrl with
          | None => Some (ErrorEnvelope 500, c)
          | Some href =>
              match origin href with
              | None => Some (ErrorEnvelope 500, c)
              | Some proxyRes =>
                  (* Attempt to cache the response *)
                  match add fuel now' iso (body proxyRes) href c with
                  | None => None
                  | Some (_, c) =>
                      (* Send response to client *)
                      if legalHeaderValue formattedUrl
                      then Some (CacheMiss (default 200%Z (statusCode proxyRes))
                                   (body proxyRes), c)
                      else Some (Unanswered, c)
                  end
              end
          end
      end
  end.
End proxy.

(** The number of lookups since the last [clear], after the operations
    [ops], when it was [start] before them. *)
Fixpoint lookupsSinceClear (ops : list Op) (start : Z) : Z :=
  match ops with
  | [] => start
  | OpFind _ _ :: ops' => lookupsSinceClear ops' (start + 1)
  | OpClear :: ops' => lookupsSinceClear ops' 0
  | OpAdd _ _ _ _ :: ops' => lookupsSinceClear ops' start
  end.

(** ** ProxyServer.handleRequest and ProxyServer.getTargetUrl *)

(** What [handleRequest] writes to the client: the kind of response, with its
    status code.  The message of an error that is not a [ProxyError] comes
    from the platform and is left open ([None]). *)
Inductive Reply :=
| Preflight
| RootStatus
| ServerStatus (connected : bool) (port : Z) (timestamp : string)
| Favicon
| Proxied (r : ClientResponse)
| ErrorJson (statusCode : Z) (message : option string).

Definition replyStatus (r : Reply) : option Z :=
  match r with
  | Preflight => Some 204%Z
  | RootStatus => Some 200%Z
  | ServerStatus _ _ _ => Some 200%Z
  | Favicon => Some 204%Z
  | Proxied (CacheHit _ _ _) => Some 200%Z
  | Proxied (CacheMiss status _) => Some status
  | Proxied (ErrorEnvelope statusCode) => Some statusCode
  | Proxied Unanswered => None
  | ErrorJson statusCode _ => Some statusCode
  end.

(** What a [try] block ends with. *)
Inductive Exception :=
| TypeErrorExn
| ProxyErrorExn (message : string) (statusCode : Z).

Inductive Completion (A : Type) :=
| Returned (a : A)
| Threw (e : Exception).
Arguments Returned {A} a.
Arguments Threw {A} e.

Section server.
(** [new URL(clientReq.url, base)]: the path name and the value of the
    [targetUrl] query parameter; [None] when the constructor throws. *)
Variable parseRequestUrl : string → option (string * option string).
Variable parseHref : string → option string.
Variable origin : string → option OriginResponse.

(** [handleRequest]; [isRunning] and [port] are the fields of the server and
    [iso'] is the clock of the /status route. *)
Definition handleRequest (fuel : nat) (now now' : Z) (iso iso' : string)
    (isRunning : bool) (port : Z) (method : string) (url : option string)
    (c : LRUCache.t) : option (Reply * LRUCache.t) :=
  (* Handle CORS preflight requests *)
  if String.eqb method "OPTIONS" then Some (Preflight, c)
  else
    match url with
    | None | Some String.EmptyString =>
        Some (ErrorJson 400 (Some "No URL provided"), c)
    | Some url =>
        match parseRequestUrl url with
        | None => Some (ErrorJson 500 None, c)
        | Some (pathname, targetUrl) =>
            if String.eqb pathname "/" then Some (RootStatus, c)
            else if String.eqb pathname "/status"
            then Some (ServerStatus isRunning port iso', c)
            else if String.eqb pathname "/favicon.ico" then Some (Favicon, c)
            else if String.eqb pathname "/proxy"
            then
              match handleProxy parseHref origin fuel now now' iso targetUrl c
              with
              | Some (r, c) => Some (Proxied r, c)
              | None => None
              end
            else
              Some (ErrorJson 404
                      (Some (String.append "Endpoint not found: " pathname)),
                    c)
        end
    end.

(** [getTargetUrl]: [parseQuery] is [new URL(reqUrl, base)] followed by
    [searchParams.get('targetUrl')], [None] when the constructor throws. *)
Variable parseQuery : string → option (option string).

Definition getTargetUrl_try (reqUrl : string) : Completion string :=
  match parseQuery reqUrl with
  | None => Threw TypeErrorExn
  | Some None | Some (Some String.EmptyString) =>
      Threw (ProxyErrorExn "No target URL provided" 400)
  | Some (Some targetUrl) =>
      (* Ensure URL has protocol *)
      if negb (hasScheme targetUrl)
      then Returned (String.append "http://" targetUrl)
      else Returned targetUrl
  end.

Definition getTargetUrl (reqUrl : string) : Completion string :=
  match getTargetUrl_try reqUrl with
  | Returned s => Returned s
  | Threw _ => Threw (ProxyErrorExn "Invalid target URL" 400)
  end.
End server.

(** ** The browser-side store (class CacheStorage) *)

Module CacheStorage.
Section storage.
(** The type of the cached values ([any] in the source). *)
Variable A : Type.

Record CacheEntry := mkEntry {
  url : string;
  data : A;
  timestamp : Z;
  expiry : Z
}.

Record CacheStats := mkStats {
  hits : Z;
  misses : Z;
  totalRequests : Z;
  cacheSize : Z
}.

Record t := mk {
  cache : gmap string CacheEntry;
  stats : CacheStats
}.

(** The constructor. *)
Definition new : t := mk ∅ (mkStats 0 0 0 0).

Definition updateStats (isHit : bool) (s : t) : t :=
  let st := stats s in
  let total := (totalRequests st + 1)%Z in
  let h := if isHit then (hits st + 1)%Z else hits st in
  let m := if isHit then misses st else (misses st + 1)%Z in
  mk (cache s) (mkStats h m total (Z.of_nat (size (cache s)))).

(** [set]: [now] and [now'] are the two readings of the clock. *)
Definition set (now now' : Z) (key : string) (value : A) (s : t) : t :=
  (* Create cache entry with 30-minute expiration *)
  let entry := mkEntry key value now (now' + 30 * 60 * 1000)%Z in
  let s := mk (<[key := entry]> (cache s)) (stats s) in
  updateStats false s.

Definition get (now : Z) (key : string) (s : t) : option A * t :=
  match cache s !! key with
  | Some entry =>
      if (expiry entry >? now)%Z
      then (Some (data entry), updateStats true s)
      else (None, updateStats false s)
  | None => (None, updateStats false s)
  end.

Definition getStats (s : t) : CacheStats := stats s.

(** Sequences of operations on the store. *)
Inductive Op :=
| OpSet (now now' : Z) (key : string) (value : A)
| OpGet (now : Z) (key : string).

Definition step (op : Op) (s : t) : t :=
  match op with
  | OpSet now now' key value => set now now' key value s
  | OpGet now key => (get now key s).2
  end.

Definition run (ops : list Op) (s : t) : t :=
  foldl (λ s op, step op s) s ops.
End storage.
End CacheStorage.

(** ** Sample collaborators for the scenarios of the pipeline *)

(** The serialisation, by the URL parser of the platform, of the URLs that
    the scenarios use: a URL with a path is returned as it is, and a URL
    with an empty path gets the path [/].  Other strings are outside the
    table. *)
Definition sampleHref (s : string) : option string :=
  if String.eqb s "http://example.test/y" then Some "http://example.test/y"
  else if String.eqb s "http://example.test/y/" then Some "http://example.test/y/"
  else if String.eqb s "http://example.test" then Some "http://example.test/"
  else None.

(** A target that ends in a line feed, as a client can send it
    ([targetUrl=example.test/y%0A]).  The URL parser removes tabs and line
    breaks from its input, so the href is the one of the sample URL. *)
Definition lineFeedTarget : string :=
  String.append "example.test/y" (String.String "010" String.EmptyString).

Definition lineFeedHref (s : string) : option string :=
  if String.eqb s (String.append "http://" lineFeedTarget)
  then Some "http://example.test/y"
  else sampleHref s.

(** An origin that answers every request with status 200 and [n] bytes. *)
Definition sampleOrigin (n : nat) (href : string) : option OriginResponse :=
  Some {| statusCode := Some 200%Z; body := payload n |}.

(** A request parser for the scenarios: every URL is the /proxy route with
    the whole string as its [targetUrl]. *)
Definition sampleRequestUrl (s : string) : option (string * option string) :=
  Some ("/proxy", Some s).

(** A cache that holds two bytes under the key of the sample URL. *)
Definition oneProxied : option LRUCache.t :=
  run 8 [OpAdd 1 "t1" (payload 2) "http://example.test/y"]
      (emptyCache 300 300).

(** Collaborators that always fail. *)
Definition noHref (s : string) : option string := None.
Definition noOrigin (href : string) : option OriginResponse := None.

(** One add, one hit and one miss. *)
Definition oneHitOneMiss : option LRUCache.t :=
  run 8 [OpAdd 1 "t1" (payload 100) "a"; OpFind 2 "a"; OpFind 3 "b"]
      (emptyCache 300 300).

(** Whether a response was served from the cache. *)
Definition isHit (r : ClientResponse) : bool :=
  match r with
  | CacheHit _ _ _ => true
  | _ => false
  end.

(** ** Reading the store after a write *)

Section store.
Implicit Types (h : list CacheElement.t) (r : ref) (v : option ref).

Lemma nextOf_setNext r v h r' :
  nextOf (setNext r v h) r' =
  if decide (r' = r)
  then (if decide (r < Datatypes.length h)%nat then v else None)
  else nextOf h r'.
Proof.
  unfold nextOf, setNext. destruct (decide (r' = r)) as [->|Hne].
  - rewrite list_lookup_alter_eq. case_decide as Hr.
    + apply lookup_lt_is_Some in Hr as [x ->]. done.
    + rewrite lookup_ge_None_2 by lia. done.
  - by rewrite list_lookup_alter_ne.
Qed.

Lemma prevOf_setPrev r v h r' :
  prevOf (setPrev r v h) r' =
  if decide (r' = r)
  then (if decide (r < Datatypes.length h)%nat then v else None)
  else prevOf h r'.
Proof.
  unfold prevOf, setPrev. destruct (decide (r' = r)) as [->|Hne].
  - rewrite list_lookup_alter_eq. case_decide as Hr.
    + apply lookup_lt_is_Some in Hr as [x ->]. done.
    + rewrite lookup_ge_None_2 by lia. done.
  - by rewrite list_lookup_alter_ne.
Qed.

Lemma prevOf_setNext r v h r' : prevOf (setNext r v h) r' = prevOf h r'.
Proof.
  unfold prevOf, setNext. rewrite list_lookup_alter.
  case_decide; [subst|done]. by destruct (h !! r').
Qed.

Lemma nextOf_setPrev r v h r' : nextOf (setPrev r v h) r' = nextOf h r'.
Proof.
  unfold nextOf, setPrev. rewrite list_lookup_alter.
  case_decide; [subst|done]. by destruct (h !! r').
Qed.

Lemma nextOf_setLruTimeTrack r z h r' :
  nextOf (setLruTimeTrack r z h) r' = nextOf h r'.
Proof.
  unfold nextOf, setLruTimeTrack. rewrite list_lookup_alter.
  case_decide; [subst|done]. by destruct (h !! r').
Qed.

Lemma prevOf_setLruTimeTrack r z h r' :
  prevOf (setLruTimeTrack r z h) r' = prevOf h r'.
Proof.
  unfold prevOf, setLruTimeTrack. rewrite list_lookup_alter.
  case_decide; [subst|done]. by destruct (h !! r').
Qed.

Lemma contentOf_alter (f : CacheElement.t → CacheElement.t) h r r' :
  (∀ e, content (f e) = content e) →
  contentOf (alter f r h) r' = contentOf h r'.
Proof.
  intros Hf. unfold contentOf. rewrite list_lookup_alter.
  case_decide; [subst|done]. destruct (h !! r'); simpl; [|done].
  by rewrite Hf.
Qed.

Lemma contentOf_setNext r v h r' : contentOf (setNext r v h) r' = contentOf h r'.
Proof. by apply contentOf_alter. Qed.

Lemma contentOf_setPrev r v h r' : contentOf (setPrev r v h) r' = contentOf h r'.
Proof. by apply contentOf_alter. Qed.

Lemma contentOf_setLruTimeTrack r z h r' :
  contentOf (setLruTimeTrack r z h) r' = contentOf h r'.
Proof. by apply contentOf_alter. Qed.

Lemma lruOf_setNext r v h r' : lruOf (setNext r v h) r' = lruOf h r'.
Proof.
  unfold lruOf, setNext. rewrite list_lookup_alter.
  case_decide; [subst|done]. by destruct (h !! r').
Qed.

Lemma lruOf_setPrev r v h r' : lruOf (setPrev r v h) r' = lruOf h r'.
Proof.
  unfold lruOf, setPrev. rewrite list_lookup_alter.
  case_decide; [subst|done]. by destruct (h !! r').
Qed.

Lemma lruOf_setLruTimeTrack r z h r' :
  lruOf (setLruTimeTrack r z h) r' =
  if decide (r' = r)
  then (if decide (r < Datatypes.length h)%nat then Some z else None)
  else lruOf h r'.
Proof.
  unfold lruOf, setLruTimeTrack. destruct (decide (r' = r)) as [->|Hne].
  - rewrite list_lookup_alter_eq. case_decide as Hr.
    + apply lookup_lt_is_Some in Hr as [x ->]. done.
    + rewrite lookup_ge_None_2 by lia. done.
  - by rewrite list_lookup_alter_ne.
Qed.

Lemma is_Some_setNext r v h r' : is_Some (setNext r v h !! r') ↔ is_Some (h !! r').
Proof. unfold setNext. by rewrite !lookup_lt_is_Some, length_alter. Qed.

Lemma is_Some_setPrev r v h r' : is_Some (setPrev r v h !! r') ↔ is_Some (h !! r').
Proof. unfold setPrev. by rewrite !lookup_lt_is_Some, length_alter. Qed.

Lemma is_Some_setLruTimeTrack r z h r' :
  is_Some (setLruTimeTrack r z h !! r') ↔ is_Some (h !! r').
Proof. unfold setLruTimeTrack. by rewrite !lookup_lt_is_Some, length_alter. Qed.

Lemma length_setNext r v h : Datatypes.length (setNext r v h) = Datatypes.length h.
Proof. apply length_alter. Qed.

Lemma length_setPrev r v h : Datatypes.length (setPrev r v h) = Datatypes.length h.
Proof. apply length_alter. Qed.

Lemma length_setLruTimeTrack r z h :
  Datatypes.length (setLruTimeTrack r z h) = Datatypes.length h.
Proof. apply length_alter. Qed.

Lemma nextOf_snoc_lt h x r :
  (r < Datatypes.length h)%nat → nextOf (h ++ [x]) r = nextOf h r.
Proof. intros Hr. unfold nextOf. by rewrite lookup_app_l. Qed.

Lemma prevOf_snoc_lt h x r :
  (r < Datatypes.length h)%nat → prevOf (h ++ [x]) r = prevOf h r.
Proof. intros Hr. unfold prevOf. by rewrite lookup_app_l. Qed.

Lemma contentOf_snoc_lt h x r :
  (r < Datatypes.length h)%nat → contentOf (h ++ [x]) r = contentOf h r.
Proof. intros Hr. unfold contentOf. by rewrite lookup_app_l. Qed.

Lemma nextOf_snoc h x : nextOf (h ++ [x]) (Datatypes.length h) = CacheElement.next x.
Proof. unfold nextOf. by rewrite list_lookup_middle. Qed.

Lemma prevOf_snoc h x : prevOf (h ++ [x]) (Datatypes.length h) = CacheElement.prev x.
Proof. unfold prevOf. by rewrite list_lookup_middle. Qed.

Lemma contentOf_snoc h x :
  contentOf (h ++ [x]) (Datatypes.length h) = Some (content x).
Proof. unfold contentOf. by rewrite list_lookup_middle. Qed.

Lemma is_Some_contentOf h r : is_Some (contentOf h r) ↔ is_Some (h !! r).
Proof. unfold contentOf. by rewrite fmap_is_Some. Qed.

(** The accounted size of an element is part of its content. *)
Lemma accounted_content h h' r :
  contentOf h' r = contentOf h r →
  from_option accounted 0%Z (h' !! r) = from_option accounted 0%Z (h !! r).
Proof.
  unfold contentOf. destruct (h' !! r) as [e'|], (h !! r) as [e|];
    simpl; intros H; try done.
  unfold accounted, content in *. injection H as _ _ Hl Hu. by rewrite Hl, Hu.
Qed.

Lemma bytesOf_content h h' (l : list ref) :
  (∀ r, r ∈ l → contentOf h' r = contentOf h r) →
  bytesOf h' l = bytesOf h l.
Proof.
  induction l as [|r l IH]; intros H; [done|]. simpl.
  rewrite (accounted_content h h' r); [|apply H; left].
  rewrite IH; [done|]. intros r' Hr'. apply H. by right.
Qed.
End store.

Global Arguments setNext : simpl never.
Global Arguments setPrev : simpl never.
Global Arguments setLruTimeTrack : simpl never.
Global Arguments nextOf : simpl never.
Global Arguments prevOf : simpl never.
Global Arguments contentOf : simpl never.
Global Arguments lruOf : simpl never.

(** Normalising a read of the store after the writes of an operation. *)
Ltac store_simpl :=
  repeat first
    [ progress simpl
    | rewrite nextOf_setNext | rewrite nextOf_setPrev
    | rewrite nextOf_setLruTimeTrack
    | rewrite prevOf_setPrev | rewrite prevOf_setNext
    | rewrite prevOf_setLruTimeTrack
    | rewrite contentOf_setNext | rewrite contentOf_setPrev
    | rewrite contentOf_setLruTimeTrack
    | rewrite lruOf_setNext | rewrite lruOf_setPrev
    | rewrite is_Some_setNext | rewrite is_Some_setPrev
    | rewrite is_Some_setLruTimeTrack
    | rewrite length_setNext | rewrite length_setPrev
    | rewrite length_setLruTimeTrack ].

Ltac store_cases :=
  store_simpl; repeat case_decide; simplify_eq; try done; try lia.

(** ** The list predicate under unlinking and linking *)

Section dll_surgery.
Implicit Types (c : LRUCache.t) (l : list ref) (r e : ref).

Lemma dll_lookup_ne c l i k r e :
  dll c l → l !! k = Some e → l !! i = Some r → i ≠ k → r ≠ e.
Proof.
  intros D Hk Hi Hne ->. apply Hne.
  eapply NoDup_lookup; eauto using dll_nodup.
Qed.

Lemma dll_lookup_inj c l i k e :
  dll c l → l !! k = Some e → l !! i = Some e → i = k.
Proof. intros D Hk Hi. eapply NoDup_lookup; eauto using dll_nodup. Qed.

Lemma dll_lookup_delete c l k e i r :
  dll c l → l !! k = Some e → delete k l !! i = Some r →
  r ∈ l ∧ r ≠ e ∧
  ((i < k)%nat ∧ l !! i = Some r ∨ (k ≤ i)%nat ∧ l !! S i = Some r).
Proof.
  intros D Hk Hi. destruct (decide (i < k)%nat) as [Hlt|Hge].
  - rewrite list_lookup_delete_lt in Hi by done.
    split_and!; [by eapply list_elem_of_lookup_2| |by left].
    eapply dll_lookup_ne; eauto. lia.
  - rewrite list_lookup_delete_ge in Hi by lia.
    split_and!; [by eapply list_elem_of_lookup_2| |right; split; [lia|done]].
    eapply dll_lookup_ne; eauto. lia.
Qed.

(** Taking the [k]-th member [e] out of the list: the neighbours of [e] are
    joined, and [head] and [tail] move off [e] when they were on it. *)
Lemma dll_unlink c c' l k e :
  dll c l → l !! k = Some e →
  head c' = (if decide (head c = Some e) then next_of c e else head c) →
  tail c' = (if decide (tail c = Some e) then prev_of c e else tail c) →
  (∀ r, r ∈ l → r ≠ e →
     is_Some (deref c' r) ∧
     next_of c' r =
       (if decide (next_of c r = Some e) then next_of c e else next_of c r) ∧
     prev_of c' r =
       (if decide (prev_of c r = Some e) then prev_of c e else prev_of c r)) →
  dll c' (delete k l).
Proof.
  intros D Hk Hhd Htl Hrest.
  pose proof (dll_next _ _ D k e Hk) as Hne.
  pose proof (dll_prev _ _ D k e Hk) as Hpe.
  assert (k < Datatypes.length l)%nat as Hlen by by eapply lookup_lt_Some.
  split.
  - apply (sublist_NoDup (delete k l) l); [apply D|apply sublist_delete].
  - rewrite Hhd, (dll_head _ _ D). destruct k as [|k].
    + rewrite decide_True by done. rewrite Hne.
      by rewrite list_lookup_delete_ge by lia.
    + rewrite list_lookup_delete_lt by lia.
      rewrite decide_False; [done|].
      intros H0. by pose proof (dll_lookup_inj _ _ _ _ _ D Hk H0).
  - rewrite Htl, (dll_tail _ _ D), !last_lookup, length_delete by eauto.
    destruct (decide (k = pred (Datatypes.length l))) as [->|Hnl].
    + rewrite decide_True by done. rewrite Hpe.
      destruct (Datatypes.length l) as [|[|n]] eqn:El; simpl in *; [lia| |].
      * destruct l as [|? [|]]; simpl in *; try done.
      * rewrite list_lookup_delete_lt by lia. done.
    + rewrite decide_False.
      * rewrite list_lookup_delete_ge by lia. f_equal. lia.
      * intros H0. apply Hnl. symmetry.
        by eapply (dll_lookup_inj _ _ _ _ _ D Hk).
  - intros r Hr. apply list_elem_of_lookup_1 in Hr as [i Hi].
    destruct (dll_lookup_delete _ _ _ _ _ _ D Hk Hi) as (Hin & Hner & _).
    by apply Hrest.
  - intros i r Hi. clear Hhd Htl.
    destruct (dll_lookup_delete _ _ _ _ _ _ D Hk Hi) as (Hin & Hner & Hpos).
    destruct (Hrest r Hin Hner) as (_ & -> & _).
    destruct Hpos as [[Hlt Hl]|[Hge Hl]].
    + rewrite (dll_next _ _ D _ _ Hl). case_decide as Hd.
      * pose proof (dll_lookup_inj _ _ _ _ _ D Hk Hd) as <-.
        rewrite Hne. by rewrite list_lookup_delete_ge by lia.
      * rewrite list_lookup_delete_lt; [done|].
        destruct (decide (S i = k)) as [<-|]; [by rewrite Hk in Hd|lia].
    + rewrite (dll_next _ _ D _ _ Hl). case_decide as Hd.
      * pose proof (dll_lookup_inj _ _ _ _ _ D Hk Hd). lia.
      * by rewrite list_lookup_delete_ge by lia.
  - intros i r Hi. clear Hhd Htl.
    destruct (dll_lookup_delete _ _ _ _ _ _ D Hk Hi) as (Hin & Hner & Hpos).
    destruct (Hrest r Hin Hner) as (_ & _ & ->).
    destruct Hpos as [[Hlt Hl]|[Hge Hl]].
    + rewrite (dll_prev _ _ D _ _ Hl). destruct i as [|i].
      * by rewrite decide_False.
      * case_decide as Hd.
        -- pose proof (dll_lookup_inj _ _ _ _ _ D Hk Hd). lia.
        -- by rewrite list_lookup_delete_lt by lia.
    + rewrite (dll_prev _ _ D _ _ Hl). case_decide as Hd.
      * pose proof (dll_lookup_inj _ _ _ _ _ D Hk Hd) as ->.
        rewrite Hpe. destruct k as [|k]; [done|].
        by rewrite list_lookup_delete_lt by lia.
      * destruct i as [|i].
        -- assert (k = 0)%nat as -> by lia. by rewrite Hk in Hd.
        -- rewrite list_lookup_delete_ge; [done|].
           destruct (decide (k = S i)) as [->|]; [by rewrite Hk in Hd|lia].
Qed.

(** Putting an object [e] that is not in the list in front of it. *)
Lemma dll_push c c' l e :
  dll c l → e ∉ l →
  is_Some (deref c' e) →
  head c' = Some e →
  tail c' = match tail c with None => Some e | Some t => Some t end →
  next_of c' e = head c →
  prev_of c' e = None →
  (∀ r, r ∈ l →
     is_Some (deref c' r) ∧
     next_of c' r = next_of c r ∧
     prev_of c' r = (if decide (head c = Some r) then Some e else prev_of c r)) →
  dll c' (e :: l).
Proof.
  intros D Hfresh He Hhd Htl Hn Hp Hrest. split.
  - apply NoDup_cons. split; [done|apply D].
  - done.
  - rewrite Htl, (dll_tail _ _ D), last_cons. by destruct (last l).
  - intros r [->|Hr]%elem_of_cons; [done|]. by apply Hrest.
  - intros [|i] r Hi; simpl in *.
    + injection Hi as <-. by rewrite Hn, (dll_head _ _ D).
    + destruct (Hrest r) as (_ & -> & _); [by eapply list_elem_of_lookup_2|].
      by apply D.
  - intros [|i] r Hi; simpl in *.
    + by injection Hi as <-.
    + destruct (Hrest r) as (_ & _ & ->); [by eapply list_elem_of_lookup_2|].
      rewrite (dll_head _ _ D), (dll_prev _ _ D _ _ Hi).
      destruct i as [|i]; simpl.
      * by rewrite decide_True.
      * rewrite decide_False; [done|]. intros H0.
        by pose proof (NoDup_lookup _ _ _ _ (dll_nodup _ _ D) Hi H0).
Qed.

(** A state that agrees on the ends and on the links of the members has
    the same list. *)
Lemma dll_ext c c' l :
  dll c l →
  head c' = head c → tail c' = tail c →
  (∀ r, r ∈ l →
     is_Some (deref c' r) ∧ next_of c' r = next_of c r ∧
     prev_of c' r = prev_of c r) →
  dll c' l.
Proof.
  intros D Hhd Htl Hrest. split.
  - apply D.
  - by rewrite Hhd, (dll_head _ _ D).
  - by rewrite Htl, (dll_tail _ _ D).
  - intros r Hr. by apply Hrest.
  - intros i r Hi. destruct (Hrest r) as (_ & -> & _); [|by apply D].
    by eapply list_elem_of_lookup_2.
  - intros i r Hi. destruct (Hrest r) as (_ & _ & ->); [|by apply D].
    by eapply list_elem_of_lookup_2.
Qed.

(** Which member points to a given one. *)
Lemma dll_next_is c l k e r :
  dll c l → l !! k = Some e → r ∈ l →
  next_of c r = Some e ↔ ∃ j, k = S j ∧ l !! j = Some r.
Proof.
  intros D Hk [i Hi]%list_elem_of_lookup_1. rewrite (dll_next _ _ D _ _ Hi).
  split.
  - intros H. exists i. split; [|done].
    symmetry. by eapply (dll_lookup_inj _ _ _ _ _ D Hk).
  - intros (j & -> & Hj).
    by rewrite (NoDup_lookup _ _ _ _ (dll_nodup _ _ D) Hi Hj).
Qed.

Lemma dll_prev_is c l k e r :
  dll c l → l !! k = Some e → r ∈ l →
  prev_of c r = Some e ↔ l !! S k = Some r.
Proof.
  intros D Hk [i Hi]%list_elem_of_lookup_1. rewrite (dll_prev _ _ D _ _ Hi).
  split.
  - destruct i as [|i]; [done|]. intros H.
    by rewrite <-(dll_lookup_inj _ _ _ _ _ D Hk H).
  - intros Hj.
    by rewrite (NoDup_lookup _ _ _ _ (dll_nodup _ _ D) Hi Hj).
Qed.

(** A list that [dll] describes is the one [listOrder] reads off. *)
Lemma dll_length c l :
  dll c l → (Datatypes.length l ≤ Datatypes.length (heap c))%nat.
Proof.
  intros D.
  assert (l ⊆+ seq 0 (Datatypes.length (heap c))) as Hsub.
  { apply NoDup_submseteq; [apply D|].
    intros r Hr. apply elem_of_seq. split; [lia|]. simpl.
    by apply lookup_lt_is_Some, (dll_alloc _ _ D). }
  apply submseteq_length in Hsub. by rewrite length_seq in Hsub.
Qed.

Lemma walk_dll c l :
  dll c l →
  ∀ fuel i, (Datatypes.length l ≤ fuel + i)%nat →
            walk fuel (heap c) (l !! i) = drop i l.
Proof.
  intros D fuel. induction fuel as [|fuel IH]; intros i Hlen; simpl.
  - by rewrite drop_ge by lia.
  - destruct (l !! i) as [r|] eqn:Hi.
    + rewrite (dll_next _ _ D _ _ Hi), IH by lia.
      symmetry. by apply drop_S.
    + apply lookup_ge_None in Hi. by rewrite drop_ge by lia.
Qed.

Lemma dll_listOrder c l : dll c l → listOrder c = l.
Proof.
  intros D. unfold listOrder.
  rewrite (dll_head _ _ D), (walk_dll _ _ D); [done|].
  pose proof (dll_length _ _ D). lia.
Qed.

Lemma dll_unique c l l' : dll c l → dll c l' → l = l'.
Proof. intros D D'. by rewrite <-(dll_listOrder _ _ D), (dll_listOrder _ _ D'). Qed.
End dll_surgery.

(** ** The list operations of the cache, on the list predicate *)

Section operations.
Implicit Types (c : LRUCache.t) (l : list ref) (r e : ref).

Lemma dll_alloc_lt c l r :
  dll c l → r ∈ l → (r < Datatypes.length (heap c))%nat.
Proof. intros D Hr. by apply lookup_lt_is_Some, (dll_alloc _ _ D). Qed.

(** *** moveToFront in two phases *)

Lemma moveToFront_phases e c :
  moveToFront e c =
  if decide (head c = Some e) then c else linkPhase e (unlinkPhase e c).
Proof. reflexivity. Qed.

Lemma linkPhase_dll c l e :
  dll c l → e ∉ l → is_Some (deref c e) → dll (linkPhase e c) (e :: l).
Proof.
  intros D Hfresh He. apply lookup_lt_is_Some in He.
  assert (∀ h, head c = Some h →
               h ∈ l ∧ h ≠ e ∧ (h < Datatypes.length (heap c))%nat) as Hh.
  { intros h Hh. rewrite (dll_head _ _ D) in Hh.
    apply list_elem_of_lookup_2 in Hh.
    split_and!; [done|by intros ->|by eapply dll_alloc_lt]. }
  apply (dll_push c); try done; unfold linkPhase; simpl;
    destruct (head c) as [h|] eqn:Eh; simpl;
    destruct (tail c) as [t|] eqn:Et; simpl; try done.
  1-4: store_simpl; by apply lookup_lt_is_Some.
  1-4: store_cases.
  1-4: store_cases; by destruct (Hh _ eq_refl) as (_ & ? & _).
  all: intros r Hr; assert (r ≠ e) by (by intros ->);
    pose proof (dll_alloc_lt _ _ _ D Hr); store_simpl;
    (split; [by apply lookup_lt_is_Some|]);
    repeat case_decide; simplify_eq; try done;
    by destruct (Hh _ eq_refl) as (_ & _ & ?).
Qed.

Lemma unlinkPhase_dll c l k e :
  dll c l → l !! k = Some e → head c ≠ Some e →
  dll (unlinkPhase e c) (delete k l) ∧
  is_Some (deref (unlinkPhase e c) e).
Proof.
  intros D Hk Hhd.
  destruct k as [|j]; [by rewrite (dll_head _ _ D) in Hhd|].
  assert (is_Some (l !! j)) as [p Hp].
  { apply lookup_lt_is_Some. apply lookup_lt_Some in Hk. lia. }
  pose proof (dll_prev _ _ D _ _ Hk) as Hpe. simpl in Hpe. rewrite Hp in Hpe.
  pose proof (dll_next _ _ D _ _ Hk) as Hne.
  assert (p ≠ e) as Hpne by (eapply (dll_lookup_ne c l j (S j)); eauto; lia).
  assert (e ∈ l) as Hel by by eapply list_elem_of_lookup_2.
  pose proof (dll_alloc_lt _ _ _ D Hel) as Hea.
  assert (p < Datatypes.length (heap c))%nat as Hpa.
  { eapply dll_alloc_lt; [done|]. by eapply list_elem_of_lookup_2. }
  assert (∀ n, l !! S (S j) = Some n →
               n ≠ e ∧ (n < Datatypes.length (heap c))%nat) as Hn.
  { intros n Hn. split.
    - eapply (dll_lookup_ne c l (S (S j)) (S j)); eauto.
    - eapply dll_alloc_lt; [done|]. by eapply list_elem_of_lookup_2. }
  unfold unlinkPhase. rewrite Hpe. simpl.
  rewrite nextOf_setNext. rewrite (decide_False (P := e = p)) by (by intros ->).
  rewrite Hne.
  split.
  - apply (dll_unlink c _ l (S j) e); try done.
    + rewrite (decide_False (P := head c = Some e)) by done.
      destruct (l !! S (S j)); simpl; by case_decide.
    + rewrite ?Hpe, ?Hne.
      destruct (l !! S (S j)) as [n|] eqn:En; simpl;
        case_decide; store_cases.
    + intros r Hr Hre. pose proof (dll_alloc_lt _ _ _ D Hr) as Hra.
      rewrite ?Hne, ?Hpe.
      pose proof (dll_next_is _ _ _ _ r D Hk Hr) as Hnx.
      pose proof (dll_prev_is _ _ _ _ r D Hk Hr) as Hpx.
      assert (nextOf (heap c) r = Some e ↔ r = p) as Hnx'.
      { rewrite Hnx. split; [|intros ->; eauto].
        intros (j0 & [= <-] & Hj0). congruence. }
      clear Hnx.
      destruct (l !! S (S j)) as [n|] eqn:En; simpl;
        destruct (decide (tail c = Some e)); store_simpl;
        (split; [by apply lookup_lt_is_Some|]); rewrite ?Hpe;
        try (destruct (Hn _ eq_refl) as [Hn1 Hn2]); clear Hn;
        try (assert (prevOf (heap c) r = Some e ↔ r = n) as Hpx'
               by (rewrite Hpx; split; congruence));
        split; repeat case_decide; try done; try lia;
        exfalso; intuition congruence.
  - apply lookup_lt_is_Some.
    destruct (l !! S (S j)) as [n|] eqn:En; simpl;
      destruct (decide (tail c = Some e)); store_simpl; done.
Qed.

Lemma dll_not_in_delete c l k e : dll c l → l !! k = Some e → e ∉ delete k l.
Proof.
  intros D Hk [i Hi]%list_elem_of_lookup_1.
  by destruct (dll_lookup_delete _ _ _ _ _ _ D Hk Hi) as (_ & ? & _).
Qed.

(** [moveToFront] splices the member at position [k] to the head. *)
Lemma moveToFront_dll c l k e :
  dll c l → l !! k = Some e → dll (moveToFront e c) (e :: delete k l).
Proof.
  intros D Hk. rewrite moveToFront_phases. case_decide as Hhd.
  - rewrite (dll_head _ _ D) in Hhd.
    pose proof (dll_lookup_inj _ _ _ _ _ D Hk Hhd) as <-.
    destruct l as [|x l]; simplify_eq/=. done.
  - destruct (unlinkPhase_dll _ _ _ _ D Hk Hhd) as [D' He].
    apply linkPhase_dll; [done| |done].
    by eapply dll_not_in_delete.
Qed.

(** What [moveToFront] leaves alone, in any state. *)
Lemma moveToFront_frame e c :
  cacheMap (moveToFront e c) = cacheMap c ∧
  cacheSize (moveToFront e c) = cacheSize c ∧
  hits (moveToFront e c) = hits c ∧
  misses (moveToFront e c) = misses c ∧
  maxSize (moveToFront e c) = maxSize c ∧
  maxElementSize (moveToFront e c) = maxElementSize c ∧
  Datatypes.length (heap (moveToFront e c)) = Datatypes.length (heap c) ∧
  ∀ r, content_of (moveToFront e c) r = content_of c r ∧
       lruOf (heap (moveToFront e c)) r = lruOf (heap c) r.
Proof.
  unfold moveToFront. case_decide; [done|].
  destruct (prev_of c e) as [p|]; simpl;
    (destruct (nextOf _ e) as [n|]; simpl);
    (destruct (decide (tail c = Some e)); simpl);
    (destruct (head c) as [h|]; simpl);
    repeat case_match; store_simpl; split_and!; try done;
    intros r; store_simpl; done.
Qed.

(** *** removeLRU *)

Lemma removeLRU_empty c : tail c = None → removeLRU c = c.
Proof. intros H. unfold removeLRU. by rewrite H. Qed.

(** What [removeLRU] leaves alone, in any state. *)
Lemma removeLRU_frame c :
  hits (removeLRU c) = hits c ∧
  misses (removeLRU c) = misses c ∧
  maxSize (removeLRU c) = maxSize c ∧
  maxElementSize (removeLRU c) = maxElementSize c ∧
  Datatypes.length (heap (removeLRU c)) = Datatypes.length (heap c) ∧
  ∀ r, content_of (removeLRU c) r = content_of c r.
Proof.
  unfold removeLRU. destruct (tail c) as [e|]; [|done].
  destruct (deref c e) as [lru|]; [|done]. simpl.
  destruct (CacheElement.prev lru); store_simpl; split_and!; try done;
    intros r; store_simpl; done.
Qed.

(** [removeLRU] drops the last member of the list, deletes its URL from
    the index and subtracts its accounted size. *)
Lemma removeLRU_dll c l e :
  dll c (l ++ [e]) →
  ∃ lru, deref c e = Some lru ∧
    dll (removeLRU c) l ∧
    cacheMap (removeLRU c) = delete (CacheElement.url lru) (cacheMap c) ∧
    cacheSize (removeLRU c) = (cacheSize c - accounted lru)%Z.
Proof.
  intros D.
  assert ((l ++ [e]) !! Datatypes.length l = Some e) as Hk
    by by rewrite list_lookup_middle.
  assert (e ∈ l ++ [e]) as Hel by by eapply list_elem_of_lookup_2.
  destruct (dll_alloc _ _ D e Hel) as [lru Hlru].
  pose proof (dll_tail _ _ D) as Htl. rewrite last_snoc in Htl.
  pose proof (dll_next _ _ D _ _ Hk) as Hne.
  rewrite lookup_ge_None_2 in Hne by (rewrite length_app; simpl; lia).
  pose proof (dll_prev _ _ D _ _ Hk) as Hpe.
  assert (prev_of c e = CacheElement.prev lru) as Hprev
    by (unfold prevOf; by rewrite Hlru).
  exists lru. split; [done|].
  unfold removeLRU. rewrite Htl, Hlru. simpl.
  split; [|by destruct (CacheElement.prev lru)].
  assert (delete (Datatypes.length l) (l ++ [e]) = l) as Hdel
    by (rewrite delete_middle; apply app_nil_r).
  match goal with
  | |- dll ?c' _ =>
      enough (dll c' (delete (Datatypes.length l) (l ++ [e]))) as HH
        by (by rewrite Hdel in HH)
  end.
  apply (dll_unlink c _ (l ++ [e]) (Datatypes.length l) e); try done.
  - rewrite Hne. destruct l as [|x l]; simpl in *.
    + rewrite <-Hprev, Hpe. simpl. rewrite decide_True; [done|].
      by rewrite (dll_head _ _ D).
    + rewrite decide_False.
      * assert (is_Some (CacheElement.prev lru)) as [t ->]; [|done].
        rewrite <-Hprev, Hpe. apply lookup_lt_is_Some.
        simpl. rewrite length_app. simpl. lia.
      * rewrite (dll_head _ _ D). simpl. intros [= ->].
        pose proof (dll_nodup _ _ D) as [Hx _]%NoDup_cons. apply Hx.
        apply elem_of_app. right. by left.
  - rewrite decide_True by done. rewrite Hprev.
    by destruct (CacheElement.prev lru).
  - intros r Hr Hre.
    pose proof (dll_alloc_lt _ _ _ D Hr) as Hra.
    pose proof (dll_next_is _ _ _ _ r D Hk Hr) as Hnx.
    pose proof (dll_prev_is _ _ _ _ r D Hk Hr) as Hpx.
    rewrite lookup_ge_None_2 in Hpx by (rewrite length_app; simpl; lia).
    rewrite Hne.
    destruct (CacheElement.prev lru) as [t|] eqn:Et; store_simpl.
    + split; [by apply lookup_lt_is_Some|].
      rewrite Hprev in Hpe.
      assert (nextOf (heap c) r = Some e ↔ r = t) as Hnx'.
      { rewrite Hnx. destruct (Datatypes.length l) as [|j]; [done|].
        split.
        - intros (j0 & [= <-] & Hj0). congruence.
        - intros ->. eauto. }
      clear Hnx.
      split; repeat case_decide; try done; exfalso; intuition congruence.
    + rewrite Hprev in Hpe. destruct l as [|x l]; simpl in *.
      * apply list_elem_of_singleton in Hr. done.
      * apply eq_sym, lookup_ge_None in Hpe.
        simpl in Hpe. rewrite length_app in Hpe. simpl in Hpe. lia.
Qed.

(** *** The tail of add: a new element at the head *)

Lemma dll_ends c l : dll c l → (head c = None ↔ l = []) ∧ (tail c = None ↔ l = []).
Proof.
  intros D. rewrite (dll_head _ _ D), (dll_tail _ _ D), last_None.
  split; [|done]. by destruct l.
Qed.

Lemma insertFront_frame now iso data url sz c :
  let c' := insertFront now iso data url sz c in
  cacheMap c' = <[url := Datatypes.length (heap c)]> (cacheMap c) ∧
  cacheSize c' = (cacheSize c + sz)%Z ∧
  hits c' = hits c ∧ misses c' = misses c ∧
  maxSize c' = maxSize c ∧ maxElementSize c' = maxElementSize c ∧
  Datatypes.length (heap c') = S (Datatypes.length (heap c)) ∧
  head c' = Some (Datatypes.length (heap c)) ∧
  content_of c' (Datatypes.length (heap c)) =
    Some (iso, data, bufferLength data, url) ∧
  ∀ r, (r < Datatypes.length (heap c))%nat → content_of c' r = content_of c r.
Proof.
  unfold insertFront, alloc. simpl.
  destruct (head c) as [h|]; store_simpl;
    rewrite ?length_app, ?contentOf_snoc; simpl;
    split_and!; try done; try lia;
    intros r Hr; store_simpl; by rewrite contentOf_snoc_lt.
Qed.

Lemma insertFront_dll now iso data url sz c l :
  dll c l →
  dll (insertFront now iso data url sz c) (Datatypes.length (heap c) :: l).
Proof.
  intros D.
  assert (Datatypes.length (heap c) ∉ l) as Hfresh.
  { intros Hin. pose proof (dll_alloc_lt _ _ _ D Hin). lia. }
  destruct (dll_ends _ _ D) as [Hhd Htl].
  assert (∀ h, head c = Some h → (h < Datatypes.length (heap c))%nat) as Hh.
  { intros h Hh. eapply dll_alloc_lt; [done|].
    rewrite (dll_head _ _ D) in Hh. by eapply list_elem_of_lookup_2. }
  apply (dll_push c); try done; unfold insertFront, alloc; simpl.
  - destruct (head c) as [h|]; store_simpl; apply lookup_lt_is_Some;
      rewrite length_app; simpl; lia.
  - by destruct (head c).
  - destruct (head c) as [h|] eqn:Eh; simpl.
    + destruct (tail c); [done|]. destruct Htl as [Htl _].
      specialize (Htl eq_refl). destruct Hhd as [_ Hhd].
      by specialize (Hhd Htl).
    + destruct Hhd as [Hhd _]. specialize (Hhd eq_refl).
      destruct Htl as [_ Htl]. by rewrite (Htl Hhd).
  - destruct (head c) as [h|] eqn:Eh; store_simpl.
    + rewrite decide_True by done. rewrite length_app; simpl.
      rewrite decide_True by lia. done.
    + by rewrite nextOf_snoc.
  - destruct (head c) as [h|] eqn:Eh; store_simpl.
    + rewrite decide_False by (pose proof (Hh _ eq_refl); lia).
      by rewrite prevOf_snoc.
    + by rewrite prevOf_snoc.
  - intros r Hr. pose proof (dll_alloc_lt _ _ _ D Hr) as Hra.
    destruct (head c) as [h|] eqn:Eh; store_simpl.
    + pose proof (Hh _ eq_refl).
      rewrite lookup_lt_is_Some, length_app, nextOf_snoc_lt, prevOf_snoc_lt
        by done. simpl.
      split_and!; [lia| |]; repeat case_decide; simplify_eq; try done; lia.
    + rewrite lookup_lt_is_Some, length_app, nextOf_snoc_lt, prevOf_snoc_lt
        by done. simpl.
      split_and!; [lia|done|done].
Qed.
End operations.

(** ** find *)

Section find_facts.
Implicit Types (c : LRUCache.t) (l : list ref) (r : ref).

Lemma filter_ne_absent l r : r ∉ l → filter (λ x, x ≠ r) l = l.
Proof.
  induction l as [|x l IH]; intros Hr; [done|].
  apply not_elem_of_cons in Hr as [Hne Hr].
  rewrite filter_cons_True by done. by rewrite IH.
Qed.

Lemma NoDup_delete_filter l k r :
  NoDup l → l !! k = Some r → delete k l = filter (λ x, x ≠ r) l.
Proof.
  intros Hnd. revert k.
  induction Hnd as [|x l Hx Hnd IH]; intros [|k] Hk; simplify_eq/=.
  - rewrite filter_cons_False by (by intros ?). by rewrite filter_ne_absent.
  - rewrite filter_cons_True.
    + by rewrite <-(IH k).
    + intros ->. apply Hx. by eapply list_elem_of_lookup_2.
Qed.

Lemma find_miss now u c :
  cacheMap c !! u = None →
  find now u c = (None, with_misses (misses c + 1) c).
Proof. intros H. unfold find. by rewrite H. Qed.

Lemma find_hit now u c r :
  cacheMap c !! u = Some r →
  find now u c =
  (Some r, moveToFront r (set_lruTimeTrack r now (with_hits (hits c + 1) c))).
Proof. intros H. unfold find. by rewrite H. Qed.

(** What a lookup leaves alone, hit or miss. *)
Lemma find_frame now u c :
  let c' := (find now u c).2 in
  cacheMap c' = cacheMap c ∧ cacheSize c' = cacheSize c ∧
  maxSize c' = maxSize c ∧ maxElementSize c' = maxElementSize c ∧
  Datatypes.length (heap c') = Datatypes.length (heap c) ∧
  ∀ r, content_of c' r = content_of c r.
Proof.
  unfold find. destruct (cacheMap c !! u) as [r|]; simpl; [|done].
  match goal with
  | |- context [moveToFront r ?c0] =>
      destruct (moveToFront_frame r c0) as (-> & -> & _ & _ & -> & -> & -> & Hc)
  end.
  store_simpl. split_and!; try done.
  intros r'. destruct (Hc r') as [-> _]. by store_simpl.
Qed.

Lemma find_hit_dll now u c l k r :
  dll c l → cacheMap c !! u = Some r → l !! k = Some r →
  dll (find now u c).2 (r :: delete k l).
Proof.
  intros D Hu Hk. rewrite (find_hit _ _ _ _ Hu). simpl.
  apply moveToFront_dll; [|done].
  apply (dll_ext c); try done.
  intros r' Hr'. store_simpl. split; [|done]. by apply D.
Qed.
End find_facts.

(** ** Checking the list predicate on a concrete state *)

Global Instance dll_checked_dec c l : Decision (dll_checked c l).
Proof. unfold dll_checked. apply _. Defined.

Lemma dll_checked_sound c l : bool_decide (dll_checked c l) = true → dll c l.
Proof.
  intros (Hnd & Hhd & Htl & Hall)%bool_decide_eq_true.
  rewrite Forall_lookup in Hall.
  assert (∀ i r, l !! i = Some r →
            is_Some (deref c r) ∧ next_of c r = l !! S i ∧
            prev_of c r = match i with O => None | S j => l !! j end) as H.
  { intros i r Hi. apply (Hall i (i, r)).
    by rewrite list_lookup_imap, Hi. }
  split; try done.
  - intros r [i Hi]%list_elem_of_lookup_1. by apply (H i).
  - intros i r Hi. by apply (H i).
  - intros i r Hi. by apply (H i).
Qed.

(** ** Facts about a state that a scenario computes *)

Lemma option_holds {A} (Q : A → Prop) (o : option A) (x : A) :
  o = Some x → from_option Q True o → Q x.
Proof. by intros ->. Qed.

Lemma option_exists {A} (o : option A) (P : A → Prop) :
  is_Some o → (∀ x, o = Some x → P x) → ∃ x, o = Some x ∧ P x.
Proof. intros [x Hx] H. exists x. split; [done|]. by apply H. Qed.

(** Proves a goal about [c] by evaluation, from [Hc : o = Some c]. *)
Ltac by_evaluation Hc :=
  match type of Hc with
  | ?o = Some ?c =>
      pattern c;
      match goal with
      | |- ?Q c => apply (option_holds Q o c Hc)
      end;
      vm_compute; first [reflexivity | exact I | by intros ?]
  end.

(** The same, for a goal that is the existence of a result. *)
Ltac returns_by_evaluation Hc :=
  match type of Hc with
  | ?o = Some ?c =>
      pattern c;
      match goal with
      | |- ?Q c => apply (option_holds Q o c Hc)
      end;
      vm_compute; by eexists
  end.

(** * The claims about the cache *)

Section claims_find.
Implicit Types (c : LRUCache.t) (r : ref).

(** C3. A lookup of a URL that is not in the index returns a miss, adds
    one to [misses] and leaves every other field of the cache as it was:
    [hits], the ends of the list, the index, [cacheSize], the two limits and
    the object store with every element in it.  A lookup of a URL
    that the index maps to the element [r] returns [r], adds one to [hits]
    and leaves [misses], the index, [cacheSize] and the content of every
    element as they were; it sets [r.lruTimeTrack] to the current time; and
    in a well-linked state whose list holds [r] it leaves the list well
    linked with [r] spliced to the head, the other members in their old
    order. *)
Theorem find_miss_and_hit (now : Z) (u : string) c :
  (cacheMap c !! u = None →
     let c' := (find now u c).2 in
     (find now u c).1 = None ∧
     misses c' = (misses c + 1)%Z ∧ hits c' = hits c ∧
     head c' = head c ∧ tail c' = tail c ∧
     cacheMap c' = cacheMap c ∧ cacheSize c' = cacheSize c ∧
     maxSize c' = maxSize c ∧ maxElementSize c' = maxElementSize c ∧
     heap c' = heap c ∧ listOrder c' = listOrder c) ∧
  (∀ r, cacheMap c !! u = Some r →
     let c' := (find now u c).2 in
     (find now u c).1 = Some r ∧
     hits c' = (hits c + 1)%Z ∧ misses c' = misses c ∧
     cacheMap c' = cacheMap c ∧ cacheSize c' = cacheSize c ∧
     (∀ r', content_of c' r' = content_of c r') ∧
     (is_Some (deref c r) → lruOf (heap c') r = Some now) ∧
     (well_linked c → r ∈ listOrder c →
        well_linked c' ∧
        listOrder c' = r :: filter (λ x, x ≠ r) (listOrder c))).
Proof.
  split.
  { intros Hu. rewrite (find_miss _ _ _ Hu). simpl. by split_and!. }
  intros r Hu.
  destruct (find_frame now u c) as (Hm & Hs & _ & _ & _ & Hc).
  rewrite (find_hit _ _ _ _ Hu) in *. simpl in *.
  match goal with
  | |- context [moveToFront r ?c0] =>
      destruct (moveToFront_frame r c0) as (_ & _ & Hh & Hmi & _ & _ & _ & Hf)
  end.
  split_and!; try done.
  - intros Hr%lookup_lt_is_Some. destruct (Hf r) as [_ ->].
    simpl. rewrite lruOf_setLruTimeTrack.
    rewrite decide_True by done. by rewrite decide_True.
  - intros D [k Hk]%list_elem_of_lookup_1.
    pose proof (find_hit_dll now u c _ k r D Hu Hk) as D'.
    rewrite (find_hit _ _ _ _ Hu) in D'. simpl in D'.
    rewrite <-(NoDup_delete_filter _ k) by (done || apply D).
    unfold well_linked. by rewrite (dll_listOrder _ _ D').
Qed.

Lemma find_miss_and_hit_witness :
  ∃ c, threeEntries 343 300 = Some c ∧
    cacheMap c !! "a" = Some 0%nat ∧ well_linked c ∧
    listOrder c = [2; 1; 0]%nat ∧
    (find 4 "a" c).1 = Some 0%nat ∧
    well_linked (find 4 "a" c).2 ∧
    listOrder (find 4 "a" c).2 = [0; 2; 1]%nat ∧
    cacheMap c !! "z" = None ∧
    (find 4 "z" c).1 = None ∧
    misses (find 4 "z" c).2 = (misses c + 1)%Z ∧
    hits (find 4 "z" c).2 = hits c ∧
    listOrder (find 4 "z" c).2 = [2; 1; 0]%nat.
Proof.
  apply option_exists; [vm_compute; eauto|]. intros c Hc.
  assert (well_linked c) as Hw.
  { apply dll_checked_sound. by_evaluation Hc. }
  assert (listOrder c = [2; 1; 0]%nat) as Hl by by_evaluation Hc.
  assert (cacheMap c !! "a" = Some 0%nat) as Hu by by_evaluation Hc.
  assert (cacheMap c !! "z" = None) as Hz by by_evaluation Hc.
  destruct (proj2 (find_miss_and_hit 4 "a" c) 0%nat Hu)
    as (Hres & _ & _ & _ & _ & _ & _ & Hsplice).
  destruct (proj1 (find_miss_and_hit 4 "z" c) Hz)
    as (Hnone & Hmisses & Hhits & _ & _ & _ & _ & _ & _ & _ & Hsame).
  destruct Hsplice as [Hw' Hl'];
    [exact Hw|rewrite Hl; do 2 (apply elem_of_cons; right); by left|].
  rewrite Hl in Hl', Hsame.
  split_and!; [exact Hu|exact Hw|exact Hl|exact Hres|exact Hw'|exact Hl'|
               exact Hz|exact Hnone|exact Hmisses|exact Hhits|exact Hsame].
Defined.
End claims_find.

Section claims_oversize.
Implicit Types (c : LRUCache.t) (r : ref).

(** C4. An entry whose size, [byteSize(d) + byteSize(k)], is above
    [maxElementSize] is rejected: [add] returns false and the cache is the
    one it was, in every field; and when that cache was empty, the next
    lookup of [k] misses. *)
Theorem add_oversize_no_mutation (fuel : nat) (now : Z) (iso : string)
    (d : list byte) (k : string) c :
  (bufferLength d + byteLength k > maxElementSize c)%Z →
  add fuel now iso d k c = Some (false, c) ∧
  (∀ now', cacheMap c = ∅ → (find now' k c).1 = None).
Proof.
  intros Hbig. split.
  - unfold add. apply Z.gtb_gt in Hbig. simpl. by rewrite Hbig.
  - intros now' He. rewrite find_miss; [done|]. by rewrite He.
Qed.

Lemma add_oversize_no_mutation_witness :
  (bufferLength (payload 1025) + byteLength "x"
     > maxElementSize (emptyCache 300 1024))%Z ∧
  add 8 1 "t1" (payload 1025) "x" (emptyCache 300 1024)
    = Some (false, emptyCache 300 1024) ∧
  (find 2 "x" (emptyCache 300 1024)).1 = None.
Proof.
  assert (bufferLength (payload 1025) + byteLength "x"
            > maxElementSize (emptyCache 300 1024))%Z as H
    by (vm_compute; reflexivity).
  destruct (add_oversize_no_mutation 8 1 "t1" (payload 1025) "x"
              (emptyCache 300 1024) H) as [Ha Hf].
  split; [exact H|]. split; [exact Ha|]. apply Hf. reflexivity.
Defined.

(** C9. When the index holds an element [r] for [k] and the new entry for
    [k] is above [maxElementSize], [add] returns false before it reaches the
    removal of the existing entry: the cache is unchanged, and the next
    lookup of [k] hits, returns [r], and [r] still has its old bytes. *)
Theorem add_oversize_keeps_existing (fuel : nat) (now now' : Z)
    (iso : string) (d : list byte) (k : string) c r (el : CacheElement.t) :
  cacheMap c !! k = Some r → deref c r = Some el →
  (bufferLength d + byteLength k > maxElementSize c)%Z →
  add fuel now iso d k c = Some (false, c) ∧
  (find now' k c).1 = Some r ∧
  CacheElement.data <$> deref (find now' k c).2 r = Some (CacheElement.data el).
Proof.
  intros Hk Hr Hbig. split_and!.
  - unfold add. apply Z.gtb_gt in Hbig. simpl. by rewrite Hbig.
  - by rewrite (find_hit _ _ _ _ Hk).
  - destruct (find_frame now' k c) as (_ & _ & _ & _ & _ & Hc).
    specialize (Hc r). unfold contentOf in Hc. rewrite Hr in Hc.
    destruct (deref (find now' k c).2 r) as [el'|]; [|done].
    simpl in *. unfold content in Hc. congruence.
Qed.

Lemma add_oversize_keeps_existing_witness :
  ∃ c, threeEntries 343 300 = Some c ∧
    cacheMap c !! "b" = Some 1%nat ∧
    CacheElement.data <$> deref c 1%nat = Some (payload 100) ∧
    (bufferLength (payload 300) + byteLength "b" > maxElementSize c)%Z ∧
    add 8 5 "t5" (payload 300) "b" c = Some (false, c) ∧
    (find 6 "b" c).1 = Some 1%nat ∧
    CacheElement.data <$> deref (find 6 "b" c).2 1%nat = Some (payload 100).
Proof.
  apply option_exists; [vm_compute; eauto|]. intros c Hc.
  assert (cacheMap c !! "b" = Some 1%nat) as Hk by by_evaluation Hc.
  assert (CacheElement.data <$> deref c 1%nat = Some (payload 100)) as Hd
    by by_evaluation Hc.
  assert (bufferLength (payload 300) + byteLength "b" > maxElementSize c)%Z
    as Hbig by by_evaluation Hc.
  destruct (deref c 1%nat) as [el|] eqn:Hel; [|discriminate Hd].
  destruct (add_oversize_keeps_existing 8 5 6 "t5" (payload 300) "b" c 1%nat
              el Hk Hel Hbig) as (Ha & Hf & Hdata).
  rewrite Hdata.
  split_and!; [exact Hk|exact Hd|exact Hbig|exact Ha|exact Hf|exact Hd].
Defined.
End claims_oversize.

(** ** The eviction loop of add *)

Section eviction.
Implicit Types (c : LRUCache.t) (l : list ref) (r : ref).

Lemma bytesOf_snoc (h : list CacheElement.t) l r :
  bytesOf h (l ++ [r]) = (bytesOf h l + from_option accounted 0 (h !! r))%Z.
Proof. induction l as [|x l IH]; simpl; [lia|]. rewrite IH. lia. Qed.

Lemma accounted_nonneg (e : CacheElement.t) :
  CacheElement.length e = bufferLength (CacheElement.data e) →
  (0 ≤ accounted e)%Z.
Proof. intros H. unfold accounted, bufferLength, byteLength in *. lia. Qed.

Lemma lengths_ok_content (h h' : list CacheElement.t) l :
  (∀ r, contentOf h' r = contentOf h r) → lengths_ok h l → lengths_ok h' l.
Proof.
  intros Hc Hl r e' Hr He'. specialize (Hc r). unfold contentOf in Hc.
  rewrite He' in Hc. destruct (h !! r) as [e|] eqn:He; [|done].
  simpl in Hc. unfold content in Hc.
  assert (CacheElement.data e' = CacheElement.data e) as Hd by congruence.
  assert (CacheElement.length e' = CacheElement.length e) as Hlen
    by congruence.
  rewrite Hd, Hlen. by eapply Hl.
Qed.

Lemma ensureSpace_exit fuel sz c :
  (cacheSize c + sz ≤ maxSize c)%Z → ensureSpace fuel sz c = Some c.
Proof.
  intros H.
  assert ((cacheSize c + sz >? maxSize c)%Z = false) as Hb
    by (rewrite Z.gtb_ltb; by apply Z.ltb_ge).
  destruct fuel; simpl; by rewrite Hb.
Qed.

Lemma ensureSpace_step fuel sz c :
  (cacheSize c + sz > maxSize c)%Z →
  ensureSpace (S fuel) sz c = ensureSpace fuel sz (removeLRU c).
Proof. intros H. simpl. apply Z.gtb_gt in H. by rewrite H. Qed.

(** [removeLRU] only deletes from the index. *)
Lemma removeLRU_index c u r :
  cacheMap (removeLRU c) !! u = Some r → cacheMap c !! u = Some r.
Proof.
  unfold removeLRU. destruct (tail c) as [e|]; [|done].
  destruct (deref c e) as [lru|]; [|done]. simpl.
  destruct (CacheElement.prev lru); simpl;
    intros H; apply lookup_delete_Some in H; tauto.
Qed.

(** What any number of evictions leaves alone. *)
Lemma evictions_frame n c :
  let c' := Nat.iter n removeLRU c in
  hits c' = hits c ∧ misses c' = misses c ∧
  maxSize c' = maxSize c ∧ maxElementSize c' = maxElementSize c ∧
  Datatypes.length (heap c') = Datatypes.length (heap c) ∧
  (∀ r, content_of c' r = content_of c r) ∧
  (∀ u r, cacheMap c' !! u = Some r → cacheMap c !! u = Some r).
Proof.
  induction n as [|n IH]; simpl; [done|].
  destruct IH as (Hh & Hm & Hmax & Hme & Hlen & Hc & Hi).
  destruct (removeLRU_frame (Nat.iter n removeLRU c))
    as (-> & -> & -> & -> & -> & Hc').
  split_and!; try done.
  - intros r. by rewrite Hc'.
  - intros u r H. by apply Hi, removeLRU_index.
Qed.

(** The loop of [add] on a well-linked list whose bytes bound [cacheSize]:
    it stops after [n] evictions, [n] at most the length of the list, each
    of them met a non-empty list, and what is left is the list without its
    last [n] members. *)
Lemma ensureSpace_loop sz c l :
  dll c l → lengths_ok (heap c) l →
  (cacheSize c ≤ bytesOf (heap c) l)%Z → (sz ≤ maxSize c)%Z →
  ∃ n, (n ≤ Datatypes.length l)%nat ∧
    (∀ fuel, (n ≤ fuel)%nat →
       ensureSpace fuel sz c = Some (Nat.iter n removeLRU c)) ∧
    (∀ j, (j < n)%nat →
       (cacheSize (Nat.iter j removeLRU c) + sz > maxSize c)%Z ∧
       tail (Nat.iter j removeLRU c) ≠ None) ∧
    (cacheSize (Nat.iter n removeLRU c) + sz ≤ maxSize c)%Z ∧
    dll (Nat.iter n removeLRU c) (take (Datatypes.length l - n) l) ∧
    (cacheSize (Nat.iter n removeLRU c)
       ≤ bytesOf (heap c) (take (Datatypes.length l - n) l))%Z.
Proof.
  revert c. induction l as [|x l IH] using rev_ind; intros c D Hl Hb Hsz.
  - exists 0%nat. simpl in *. split_and!; try done; try lia.
    intros fuel _. apply ensureSpace_exit. lia.
  - destruct (decide (cacheSize c + sz ≤ maxSize c)%Z) as [Hfit|Hover].
    + exists 0%nat. simpl. rewrite Nat.sub_0_r, firstn_all.
      split_and!; try done; try lia.
      intros fuel _. by apply ensureSpace_exit.
    + destruct (removeLRU_dll _ _ _ D) as (lru & Hlru & D1 & _ & Hs1).
      destruct (removeLRU_frame c) as (_ & _ & Hmax & _ & _ & Hc).
      assert (x ∈ l ++ [x]) as Hx by (apply elem_of_app; right; by left).
      pose proof (accounted_nonneg lru (Hl _ _ Hx Hlru)) as Hnn.
      rewrite bytesOf_snoc, Hlru in Hb. simpl in Hb.
      destruct (IH (removeLRU c)) as (n & Hn & Hrun & Hloop & Hexit & Dn & Hbn);
        try done.
      { apply (lengths_ok_content (heap c)); [done|].
        intros r e Hr. apply Hl. apply elem_of_app. by left. }
      { rewrite (bytesOf_content (heap c)) by done. lia. }
      { lia. }
      rewrite (bytesOf_content (heap c)) in Hbn by done.
      assert (Datatypes.length (l ++ [x]) - S n = Datatypes.length l - n)%nat
        as Hlen by (rewrite length_app; simpl; lia).
      exists (S n). rewrite Hlen, Nat.iter_succ_r.
      rewrite take_app_le by lia. rewrite Hmax in *.
      split_and!; try done.
      * rewrite length_app. simpl. lia.
      * intros [|fuel] Hf; [lia|].
        rewrite ensureSpace_step by lia. apply Hrun. lia.
      * intros [|j] Hj.
        -- simpl. split; [lia|].
           rewrite (dll_tail _ _ D), last_snoc. done.
        -- rewrite Nat.iter_succ_r. apply Hloop. lia.
Qed.
End eviction.

Global Instance Invariants_checked_dec c : Decision (Invariants_checked c).
Proof. unfold Invariants_checked. apply _. Defined.

Lemma Invariants_checked_sound c :
  bool_decide (Invariants_checked c) = true → Invariants c.
Proof.
  intros (D & Hin & Hmap & Hb & Hcap & Hel)%bool_decide_eq_true.
  rewrite Forall_forall in Hin. rewrite Forall_forall in Hel.
  assert (∀ r e, r ∈ listOrder c → deref c r = Some e →
            (accounted e ≤ maxElementSize c)%Z ∧
            CacheElement.length e = bufferLength (CacheElement.data e)) as He.
  { intros r e Hr Hre. apply Hel. apply list_elem_of_omap. eauto. }
  split; try done.
  - intros r. split.
    + intros Hr. apply Hin in Hr.
      apply list_elem_of_fmap in Hr as ([u r'] & -> & Hur).
      exists u. by apply elem_of_map_to_list in Hur.
    + intros [u Hu]. by apply (Hmap u).
  - intros r e Hr Hre. by destruct (He r e Hr Hre).
  - apply dll_checked_sound. by apply bool_decide_eq_true.
  - intros r e Hr Hre. by destruct (He r e Hr Hre).
Qed.

Section claims_eviction.
Implicit Types (c : LRUCache.t) (r : ref).

Lemma removeExisting_frame url c :
  let c0 := removeExisting url c in
  head c0 = head c ∧ tail c0 = tail c ∧ heap c0 = heap c ∧
  hits c0 = hits c ∧ misses c0 = misses c ∧
  maxSize c0 = maxSize c ∧ maxElementSize c0 = maxElementSize c ∧
  (∀ u r, cacheMap c0 !! u = Some r → cacheMap c !! u = Some r) ∧
  (∀ u, u ≠ url → cacheMap c0 !! u = cacheMap c !! u) ∧
  cacheSize c0 =
    (cacheSize c -
     from_option accounted 0 (cacheMap c !! url ≫= λ r, deref c r))%Z.
Proof.
  unfold removeExisting. destruct (cacheMap c !! url) as [ex|]; simpl.
  - destruct (deref c ex) as [e|]; simpl; split_and!; try done; try lia.
    + intros u r H. apply lookup_delete_Some in H. tauto.
    + intros u Hu. by rewrite lookup_delete_ne.
  - split_and!; try done; lia.
Qed.

Lemma removeExisting_dll url c l : dll c l → dll (removeExisting url c) l.
Proof.
  intros D. destruct (removeExisting_frame url c) as (Hh & Ht & Hp & _).
  apply (dll_ext c); try done. intros r Hr. rewrite Hp.
  split; [|done]. by apply D.
Qed.

(** C6. Under the invariants of the data model and the configuration
    invariant [maxElementSize ≤ maxSize], for an entry that passes the size
    check, the loop of [add] (run after the removal of an existing entry for
    the same URL) terminates: there is a number [n] of evictions, at most
    the length of the list, such that with any fuel of at least [n] the
    loop returns the state after exactly [n] calls of [removeLRU]; before
    each of these calls the loop condition holds and [tail] is not null, so
    [removeLRU] is never called on an empty list; and after the [n]-th the
    condition is false. *)
Theorem eviction_loop_terminates (data : list byte) (url : string) c :
  Invariants c →
  (maxElementSize c ≤ maxSize c)%Z →
  (bufferLength data + byteLength url ≤ maxElementSize c)%Z →
  let elementSize := (bufferLength data + byteLength url)%Z in
  let c0 := removeExisting url c in
  ∃ n, (n ≤ Datatypes.length (listOrder c))%nat ∧
    (∀ fuel, (n ≤ fuel)%nat →
       ensureSpace fuel elementSize c0 = Some (Nat.iter n removeLRU c0)) ∧
    (∀ j, (j < n)%nat →
       (cacheSize (Nat.iter j removeLRU c0) + elementSize > maxSize c0)%Z ∧
       tail (Nat.iter j removeLRU c0) ≠ None) ∧
    (cacheSize (Nat.iter n removeLRU c0) + elementSize ≤ maxSize c0)%Z.
Proof.
  intros I Hcfg Hfit elementSize c0.
  destruct (removeExisting_frame url c)
    as (_ & _ & Hheap & _ & _ & Hmax & _ & _ & _ & Hsize).
  fold c0 in Hheap, Hmax, Hsize.
  pose proof (removeExisting_dll url c _ (inv_linked _ I)) as D. fold c0 in D.
  assert (lengths_ok (heap c) (listOrder c)) as Hl
    by (intros r e; apply (inv_length _ I)).
  assert (0 ≤ from_option accounted 0
                (cacheMap c !! url ≫= λ r, deref c r))%Z as Hnn.
  { destruct (cacheMap c !! url) as [ex|] eqn:Hex; simpl; [|done].
    destruct (deref c ex) as [e|] eqn:He; simpl; [|done].
    apply accounted_nonneg, (Hl ex); [|done].
    apply (inv_membership _ I). eauto. }
  destruct (ensureSpace_loop elementSize c0 (listOrder c))
    as (n & Hn & Hrun & Hloop & Hexit & _); try done.
  - by rewrite Hheap.
  - rewrite Hheap, Hsize, <-(inv_bytes _ I). lia.
  - rewrite Hmax. unfold elementSize. lia.
  - exists n. split_and!; done.
Qed.

Lemma eviction_loop_terminates_witness :
  ∃ c, threeEntries 343 300 = Some c ∧
    Invariants c ∧
    (maxElementSize c ≤ maxSize c)%Z ∧
    (bufferLength (payload 140) + byteLength "d" ≤ maxElementSize c)%Z ∧
    ∃ n, (n ≤ Datatypes.length (listOrder c))%nat ∧
      (∀ fuel, (n ≤ fuel)%nat →
         ensureSpace fuel (bufferLength (payload 140) + byteLength "d")
           (removeExisting "d" c)
         = Some (Nat.iter n removeLRU (removeExisting "d" c))) ∧
      (∀ j, (j < n)%nat →
         (cacheSize (Nat.iter j removeLRU (removeExisting "d" c))
            + (bufferLength (payload 140) + byteLength "d")
          > maxSize (removeExisting "d" c))%Z ∧
         tail (Nat.iter j removeLRU (removeExisting "d" c)) ≠ None) ∧
      (cacheSize (Nat.iter n removeLRU (removeExisting "d" c))
         + (bufferLength (payload 140) + byteLength "d")
       ≤ maxSize (removeExisting "d" c))%Z.
Proof.
  apply option_exists; [vm_compute; eauto|]. intros c Hc.
  assert (Invariants c) as HI.
  { apply Invariants_checked_sound. by_evaluation Hc. }
  assert (maxElementSize c ≤ maxSize c)%Z as Hcfg by by_evaluation Hc.
  assert (bufferLength (payload 140) + byteLength "d" ≤ maxElementSize c)%Z
    as Hfit by by_evaluation Hc.
  split; [exact HI|]. split; [exact Hcfg|]. split; [exact Hfit|].
  exact (eviction_loop_terminates (payload 140) "d" c HI Hcfg Hfit).
Defined.
End claims_eviction.

(** * The claims checked on scenarios *)

Section claims_scenarios.

(** C1, at the input [add(d, "a"); add(d', "a")] on an empty cache with
    room for both: the second [add] deletes the first element from the
    index and subtracts its size, but does not unlink it from the list.
    The index then holds one element for "a" while the list holds two, the
    new one with the bytes [d'] followed by the old one with the bytes [d];
    the members of the list are not the elements of the index. *)
Theorem double_insert_keeps_old_entry_in_list :
  ∃ c, doubleInsert 300 300 = Some c ∧
    indexEntries c = [("a", 1%nat)] ∧
    listOrder c = [1; 0]%nat ∧
    well_linked c ∧
    urlsOf c (listOrder c) = ["a"; "a"] ∧
    dataOf c (listOrder c) = [payload 50; payload 100] ∧
    cacheSize c = 51%Z ∧
    ¬ (∀ r, r ∈ listOrder c ↔ ∃ u, cacheMap c !! u = Some r).
Proof.
  apply option_exists; [vm_compute; eauto|]. intros c Hc.
  assert (indexEntries c = [("a", 1%nat)]) as Hi by by_evaluation Hc.
  assert (listOrder c = [1; 0]%nat) as Hl by by_evaluation Hc.
  split_and!; try assumption; try by_evaluation Hc.
  - apply dll_checked_sound. by_evaluation Hc.
  - intros H. destruct (proj1 (H 0%nat)) as [u Hu].
    { rewrite Hl. apply elem_of_cons. right. by left. }
    apply elem_of_map_to_list in Hu. unfold indexEntries in Hi.
    rewrite Hi in Hu. apply list_elem_of_singleton in Hu. congruence.
Qed.

(** C2, at the input of two insertions of 100 bytes under "a" followed by
    100 bytes under each of "b", "c", "d", with [maxSize = 300]: the old
    element for "a" stays in the list, its eviction deletes the new element
    for "a" from the index and subtracts 101 bytes a second time, and the
    cache ends with [cacheSize = 202] while the index and the list both hold
    the three elements b, c, d, 303 bytes, which is more than [maxSize]. *)
Theorem double_insert_breaks_byte_count :
  ∃ c, doubleInsertThenFill 300 300 = Some c ∧
    cacheSize c = 202%Z ∧
    urlsOf c (listOrder c) = ["d"; "c"; "b"] ∧
    indexEntries c ≡ₚ [("b", 2%nat); ("c", 3%nat); ("d", 4%nat)] ∧
    bytesOf (heap c) (listOrder c) = 303%Z ∧
    indexBytes c = 303%Z ∧
    maxSize c = 300%Z.
Proof.
  apply option_exists; [vm_compute; eauto|]. intros c Hc.
  assert (indexEntries c = [("c", 3%nat); ("b", 2%nat); ("d", 4%nat)]) as Hi
    by by_evaluation Hc.
  split_and!; try by_evaluation Hc.
  rewrite Hi. apply perm_swap.
Qed.

(** C5, as stated, fails: with [maxSize = 300] the scenario does not end
    with the index a, c, d. *)
Lemma cascading_scenario_as_stated_fails :
  ¬ ∃ c, cascadingScenario 300 300 = Some c ∧
      dom (cacheMap c) = {["a"; "c"; "d"]} ∧
      urlsOf c (listOrder c) = ["d"; "a"; "c"] ∧
      cacheSize c = (140 + 100 + 100 + 3)%Z.
Proof.
  intros (c & Hc & _ & Hurls & _).
  assert (urlsOf c (listOrder c) = ["d"; "c"]) as H by by_evaluation Hc.
  rewrite H in Hurls. discriminate Hurls.
Qed.

(** C5, amended.  Every entry is accounted with the byte of its key, 101
    bytes, so with [maxSize = 300] the third insertion already evicts a;
    the lookup of a misses; the insertion of d (141 bytes) evicts b; the
    index ends with c and d, the list is d, c, and [cacheSize] is 242.
    With [maxSize = 343], which has room for the key bytes, the three
    entries fit, the lookup promotes a, the insertion of d evicts b and not
    a, the index ends with a, c, d, the list is d, a, c, and [cacheSize] is
    140 + 100 + 100 plus the three key bytes. *)
Theorem cascading_scenario :
  (∃ c, cascadingScenario 300 300 = Some c ∧
     dom (cacheMap c) = {["c"; "d"]} ∧
     urlsOf c (listOrder c) = ["d"; "c"] ∧
     cacheSize c = 242%Z ∧ hits c = 0%Z ∧ misses c = 1%Z) ∧
  (∃ c, cascadingScenario 343 300 = Some c ∧
     dom (cacheMap c) = {["a"; "c"; "d"]} ∧
     cacheMap c !! "b" = None ∧
     urlsOf c (listOrder c) = ["d"; "a"; "c"] ∧
     cacheSize c = (140 + 100 + 100 + 3)%Z ∧ hits c = 1%Z ∧ misses c = 0%Z).
Proof.
  split.
  - apply option_exists; [vm_compute; eauto|]. intros c Hc.
    split_and!; by_evaluation Hc.
  - apply option_exists; [vm_compute; eauto|]. intros c Hc.
    split_and!; by_evaluation Hc.
Qed.
End claims_scenarios.

(** * The claims about the request pipeline and the statistics *)

Section claims_pipeline.
Implicit Types (c : LRUCache.t) (r : ref).

Lemma formatUrl_cases (t : string) :
  formatUrl t = t ∨ formatUrl t = String.append "http://" t.
Proof. unfold formatUrl. destruct (hasScheme t); auto. Qed.

(** The characters that the [i] flag lets match a lower-case letter of the
    expression, and the ones that match its punctuation. *)
Lemma lowerAscii_letter (b : ascii) :
  Ascii.eqb "h" (lowerAscii b) = (Ascii.eqb b "h" || Ascii.eqb b "H") ∧
  Ascii.eqb "t" (lowerAscii b) = (Ascii.eqb b "t" || Ascii.eqb b "T") ∧
  Ascii.eqb "p" (lowerAscii b) = (Ascii.eqb b "p" || Ascii.eqb b "P") ∧
  Ascii.eqb "s" (lowerAscii b) = (Ascii.eqb b "s" || Ascii.eqb b "S") ∧
  Ascii.eqb ":" (lowerAscii b) = Ascii.eqb b ":" ∧
  Ascii.eqb "/" (lowerAscii b) = Ascii.eqb b "/".
Proof. destruct b as [[] [] [] [] [] [] [] []]; vm_compute; done. Qed.

(** A lower-case character [a] of the expression stands for the class
    [class]. *)
Definition stands_for (a : ascii) (class : list ascii) : Prop :=
  ∀ b, Ascii.eqb a (lowerAscii b) = true ↔ In b class.

Lemma stands_for_letters :
  stands_for "h" ["h"; "H"]%char ∧ stands_for "t" ["t"; "T"]%char ∧
  stands_for "p" ["p"; "P"]%char ∧ stands_for "s" ["s"; "S"]%char ∧
  stands_for ":" [":"]%char ∧ stands_for "/" ["/"]%char.
Proof.
  split_and!; intros b;
    destruct (lowerAscii_letter b) as (Hh & Ht & Hp & Hs & Hc & Hsl);
    rewrite ?Hh, ?Ht, ?Hp, ?Hs, ?Hc, ?Hsl; simpl;
    rewrite ?orb_true_iff, !Ascii.eqb_eq; intuition congruence.
Qed.

Lemma startsWithCI_classes (a : ascii) (p : string) class classes :
  stands_for a class →
  (∀ s, startsWithCI p s = true ↔ startsWithClasses classes s) →
  ∀ s, startsWithCI (String.String a p) s = true
       ↔ startsWithClasses (class :: classes) s.
Proof.
  intros Ha Hp [|b s]; simpl; [done|].
  rewrite andb_true_iff. specialize (Ha b). specialize (Hp s). tauto.
Qed.

(** [hasScheme] decides the regular expression. *)
Lemma hasScheme_regex (s : string) :
  hasScheme s = true ↔ matchesSchemeRegex s.
Proof.
  destruct stands_for_letters as (Hh & Ht & Hp & Hs & Hc & Hsl).
  unfold hasScheme, matchesSchemeRegex. rewrite orb_true_iff.
  assert (∀ s, startsWithCI String.EmptyString s = true
               ↔ startsWithClasses [] s) as Hnil by done.
  assert (∀ s, startsWithCI "http://" s = true
               ↔ startsWithClasses httpClasses s) as Hhttp.
  { unfold httpClasses.
    by repeat (apply startsWithCI_classes; try assumption). }
  assert (∀ s, startsWithCI "https://" s = true
               ↔ startsWithClasses httpsClasses s) as Hhttps.
  { unfold httpsClasses.
    by repeat (apply startsWithCI_classes; try assumption). }
  specialize (Hhttp s). specialize (Hhttps s). tauto.
Qed.

Lemma append_scheme_ne (t : string) : String.append "http://" t ≠ t.
Proof.
  intros H. apply (f_equal String.length) in H. simpl in H.
  change (String.append String.EmptyString t) with t in H. lia.
Qed.

(** C7, as stated, fails: the three values do not get one key, the third
    keeps its trailing slash. *)
Lemma trailing_slash_is_kept :
  ¬ (formatUrl "example.test/y" = formatUrl "http://example.test/y" ∧
     formatUrl "http://example.test/y" = formatUrl "http://example.test/y/").
Proof. intros [_ H]. vm_compute in H. discriminate H. Qed.

(** C7, amended.  The handler only adds the scheme: the key it looks up is
    the value itself exactly when the value matches [^https?://], in either
    case of the letters, and the value after [http://] otherwise, so nothing
    is stripped at the end.  The values [example.test/y] and
    [http://example.test/y] get the same lookup key, [http://example.test/y],
    and so the same insertion key, whatever the URL parser returns for it; the
    value [http://example.test/y/] keeps its trailing slash and gets a
    different lookup key. *)
Theorem lookup_key_adds_scheme_only (parseHref : string → option string) :
  (∀ t, formatUrl t = t ↔ matchesSchemeRegex t) ∧
  (∀ t, ¬ matchesSchemeRegex t → formatUrl t = String.append "http://" t) ∧
  (∀ t, formatUrl t = t ∨ formatUrl t = String.append "http://" t) ∧
  formatUrl "example.test/y" = "http://example.test/y" ∧
  formatUrl "http://example.test/y" = "http://example.test/y" ∧
  storeKey parseHref "example.test/y"
    = storeKey parseHref "http://example.test/y" ∧
  formatUrl "http://example.test/y/" = "http://example.test/y/" ∧
  formatUrl "http://example.test/y/" ≠ formatUrl "example.test/y" ∧
  formatUrl "HTTPS://example.test/y" = "HTTPS://example.test/y" ∧
  formatUrl "ftp://example.test/y" = "http://ftp://example.test/y".
Proof.
  assert (∀ t, ¬ matchesSchemeRegex t →
               formatUrl t = String.append "http://" t) as Hno.
  { intros t Ht. unfold formatUrl. destruct (hasScheme t) eqn:Hs; [|done].
    by apply hasScheme_regex in Hs. }
  split_and!; try (vm_compute; reflexivity).
  - intros t. split.
    + intros Hsame. apply hasScheme_regex.
      destruct (hasScheme t) eqn:Hs; [done|]. exfalso.
      unfold formatUrl in Hsame. rewrite Hs in Hsame.
      by apply append_scheme_ne in Hsame.
    + intros Ht%hasScheme_regex. unfold formatUrl. by rewrite Ht.
  - exact Hno.
  - apply formatUrl_cases.
  - vm_compute. discriminate.
Qed.

Lemma lookup_key_adds_scheme_only_witness :
  matchesSchemeRegex "hTtP://example.test/y/" ∧
  formatUrl "hTtP://example.test/y/" = "hTtP://example.test/y/" ∧
  ¬ matchesSchemeRegex "example.test/y" ∧
  formatUrl "example.test/y" = "http://example.test/y".
Proof.
  assert (matchesSchemeRegex "hTtP://example.test/y/") as Hyes.
  { left. simpl. tauto. }
  assert (¬ matchesSchemeRegex "example.test/y") as Hno.
  { intros [H|H]; simpl in H; destruct H as [[H|[H|[]]] _]; discriminate H. }
  destruct (lookup_key_adds_scheme_only sampleHref) as (Hiff & Hadd & _).
  split; [exact Hyes|]. split; [exact (proj2 (Hiff _) Hyes)|].
  split; [exact Hno|]. exact (Hadd _ Hno).
Defined.



End claims_pipeline.

Section claims_store_key.
Implicit Types (c : LRUCache.t) (r : ref).
Variable parseHref : string → option string.
Variable origin : string → option OriginResponse.

(** The loop of [add] only deletes from the index. *)
Lemma ensureSpace_index fuel sz c c' u r :
  ensureSpace fuel sz c = Some c' →
  cacheMap c' !! u = Some r → cacheMap c !! u = Some r.
Proof.
  revert c. induction fuel as [|fuel IH]; intros c; simpl;
    destruct (cacheSize c + sz >? maxSize c)%Z; try done.
  - by intros [= ->].
  - intros H Hu. apply removeLRU_index. by eapply IH.
  - by intros [= ->].
Qed.

Lemma ensureSpace_maxElementSize fuel sz c c' :
  ensureSpace fuel sz c = Some c' → maxElementSize c' = maxElementSize c.
Proof.
  revert c. induction fuel as [|fuel IH]; intros c; simpl;
    destruct (cacheSize c + sz >? maxSize c)%Z; try done.
  - by intros [= ->].
  - intros H. rewrite (IH _ H).
    by destruct (removeLRU_frame c) as (_ & _ & _ & -> & _).
  - by intros [= ->].
Qed.

(** What [add] does to the index: nothing when the entry is too large;
    otherwise the URL is bound to a new element with the given bytes and
    time stamp, and every other URL that is bound was bound before. *)
Lemma add_index fuel now iso data url c b c' :
  add fuel now iso data url c = Some (b, c') →
  maxElementSize c' = maxElementSize c ∧
  if (bufferLength data + byteLength url >? maxElementSize c)%Z
  then b = false ∧ c' = c
  else b = true ∧
       ∃ e, cacheMap c' !! url = Some e ∧
            content_of c' e = Some (iso, data, bufferLength data, url) ∧
            ∀ u r, u ≠ url → cacheMap c' !! u = Some r →
                   cacheMap c !! u = Some r.
Proof.
  unfold add.
  destruct (bufferLength data + byteLength url >? maxElementSize c)%Z.
  { by intros [= <- <-]. }
  destruct (ensureSpace _ _ _) as [c2|] eqn:Hloop; [|done].
  intros [= <- <-].
  destruct (insertFront_frame now iso data url
              (bufferLength data + byteLength url) c2)
    as (Hmap & _ & _ & _ & _ & Hme & _ & _ & Hcontent & _).
  destruct (removeExisting_frame url c) as (_ & _ & _ & _ & _ & _ & Hme0 & Hsub & _).
  split.
  - by rewrite Hme, (ensureSpace_maxElementSize _ _ _ _ Hloop).
  - split; [done|]. exists (Datatypes.length (heap c2)).
    rewrite Hmap. split_and!; [by rewrite lookup_insert_eq|done|].
    intros u r Hu. rewrite lookup_insert_ne by done. intros Hr.
    apply Hsub. by eapply ensureSpace_index.
Qed.

(** C10, amended.  When the lookup of a /proxy request for [t] misses and
    the origin fetch completes (the request is answered as a miss or, when
    the scheme-prefixed string is not a legal header value, left unanswered),
    the URL parser gave some [h] for the scheme-prefixed string and the body
    was offered to the cache under [h]: when body and [h] are within
    [maxElementSize] the index binds [h] to an element with that body,
    otherwise nothing is stored and the miss is the only change; no other
    URL gets bound.  Lookups use the scheme-prefixed string itself.  A
    second, identical request that follows with no cache operation in between
    is served from the cache exactly when the scheme-prefixed string equals
    [h] and the entry passed the size check of [add]; in that case it returns
    the same body, with the time stamp of the insertion. *)
Theorem second_request_hits_iff_stored_under_lookup_key
    (fuel fuel2 : nat) (now now' now2 now2' : Z) (iso iso2 : string)
    (t : string) c (res1 : ClientResponse) c1 :
  handleProxy parseHref origin fuel now now' iso (Some t) c
    = Some (res1, c1) →
  (res1 = Unanswered ∨ ∃ status data, res1 = CacheMiss status data) →
  ∃ h resp,
    cacheMap c !! formatUrl t = None ∧
    parseHref (formatUrl t) = Some h ∧ origin h = Some resp ∧
    res1 = (if legalHeaderValue (formatUrl t)
            then CacheMiss (default 200%Z (statusCode resp)) (body resp)
            else Unanswered) ∧
    ((bufferLength (body resp) + byteLength h ≤ maxElementSize c)%Z →
     ∃ r, cacheMap c1 !! h = Some r ∧
          content_of c1 r
          = Some (iso, body resp, bufferLength (body resp), h)) ∧
    (¬ (bufferLength (body resp) + byteLength h ≤ maxElementSize c)%Z →
     c1 = with_misses (misses c + 1) c) ∧
    (∀ u r, u ≠ h → cacheMap c1 !! u = Some r → cacheMap c !! u = Some r) ∧
    let second :=
      handleProxy parseHref origin fuel2 now2 now2' iso2 (Some t) c1 in
    ((∃ res c2, second = Some (res, c2) ∧ isHit res = true) ↔
     (formatUrl t = h ∧
      (bufferLength (body resp) + byteLength h ≤ maxElementSize c)%Z)) ∧
    (formatUrl t = h →
     (bufferLength (body resp) + byteLength h ≤ maxElementSize c)%Z →
     ∃ c2, second = Some (CacheHit (body resp) iso (formatUrl t), c2)).
Proof.
  assert (∀ res : ClientResponse, (∃ code, res = ErrorEnvelope code) →
            ¬ (res = Unanswered ∨ ∃ status data, res = CacheMiss status data))
    as Herr.
  { intros res [code ->] [H|(? & ? & H)]; discriminate H. }
  unfold handleProxy at 1. destruct t as [|a t'].
  { intros [= <- <-] H. exfalso. eapply Herr; [|exact H]. eauto. }
  set (f := formatUrl (String a t')).
  destruct (cacheMap c !! f) as [r0|] eqn:Hf.
  { rewrite (find_hit _ _ _ _ Hf).
    destruct (deref _ r0); intros [= <- <-] [H|(? & ? & H)]; discriminate H. }
  rewrite (find_miss _ _ _ Hf).
  destruct (parseHref f) as [h|] eqn:Hh;
    [|intros [= <- <-] H; exfalso; eapply Herr; [|exact H]; eauto].
  destruct (origin h) as [resp|] eqn:Ho;
    [|intros [= <- <-] H; exfalso; eapply Herr; [|exact H]; eauto].
  destruct (add fuel now' iso (body resp) h _) as [[b c1']|] eqn:Hadd; [|done].
  intros Hres _.
  assert (res1 = (if legalHeaderValue f
                  then CacheMiss (default 200%Z (statusCode resp)) (body resp)
                  else Unanswered) ∧ c1 = c1') as [Hres1 ->].
  { destruct (legalHeaderValue f); by injection Hres as <- <-. }
  clear Hres Herr.
  exists h, resp. split; [done|]. split; [done|]. split; [done|].
  split; [exact Hres1|]. clear Hres1.
  apply add_index in Hadd as [Hme Hadd]. simpl in Hme, Hadd.
  assert (∀ c2, cacheMap c2 !! f = None →
            ¬ ∃ res c3,
                handleProxy parseHref origin fuel2 now2 now2' iso2
                  (Some (String a t')) c2 = Some (res, c3) ∧
                isHit res = true) as Hmiss.
  { intros c2 Hf2 (res & c3 & Hres & Hhit). unfold handleProxy in Hres.
    fold f in Hres. rewrite (find_miss _ _ _ Hf2), Hh, Ho in Hres.
    destruct (add fuel2 _ _ _ _ _) as [[b' c']|]; [|done].
    destruct (legalHeaderValue f); injection Hres as <- <-; done. }
  destruct (bufferLength (body resp) + byteLength h >? maxElementSize c)%Z
    eqn:Hbig.
  - destruct Hadd as [-> ->]. apply Z.gtb_gt in Hbig.
    split; [lia|]. split; [done|]. split; [done|]. split.
    + split; [|lia]. intros H. exfalso.
      by apply (Hmiss (with_misses (misses c + 1) c) Hf).
    + lia.
  - destruct Hadd as (-> & e & He & Hcontent & Hother).
    assert (bufferLength (body resp) + byteLength h ≤ maxElementSize c)%Z
      as Hfit by (rewrite Z.gtb_ltb in Hbig; by apply Z.ltb_ge).
    split; [by eauto|]. split; [done|]. split; [exact Hother|].
    destruct (decide (f = h)) as [Heq|Hne].
    + assert (∃ c2, handleProxy parseHref origin fuel2 now2 now2' iso2
                      (Some (String a t')) c1'
                    = Some (CacheHit (body resp) iso f, c2)) as [c2 Hc2].
      { unfold handleProxy. fold f. rewrite Heq.
        pose proof (find_frame now2 h c1') as (_ & _ & _ & _ & _ & Hc).
        specialize (Hc e). rewrite Hcontent in Hc.
        rewrite (find_hit _ _ _ _ He) in *. simpl in *.
        unfold contentOf in Hc.
        destruct (heap _ !! e) as [el|]; [|done].
        simpl in Hc. unfold content in Hc. eexists. repeat f_equal; congruence. }
      split; [|by eauto]. split; [done|].
      intros _. exists (CacheHit (body resp) iso f), c2. done.
    + split; [|done]. split; [|tauto]. intros H. exfalso.
      apply (Hmiss c1'); [|done].
      destruct (cacheMap c1' !! f) as [r|] eqn:Hr; [|done].
      apply Hother in Hr; [|done]. congruence.
Qed.
End claims_store_key.

Lemma second_request_hits_iff_stored_under_lookup_key_witness :
  ∃ c1,
    handleProxy sampleHref (sampleOrigin 2) 8 1 2 "t1"
      (Some "example.test/y") (emptyCache 300 300)
    = Some (CacheMiss 200 (payload 2), c1) ∧
    (∃ r, cacheMap c1 !! "http://example.test/y" = Some r ∧
          content_of c1 r
          = Some ("t1", payload 2, 2%Z, "http://example.test/y")) ∧
    ∃ c2,
      handleProxy sampleHref (sampleOrigin 2) 8 3 4 "t3"
        (Some "example.test/y") c1
      = Some (CacheHit (payload 2) "t1" (formatUrl "example.test/y"), c2).
Proof.
  destruct (handleProxy sampleHref (sampleOrigin 2) 8 1 2 "t1"
              (Some "example.test/y") (emptyCache 300 300))
    as [[res c1]|] eqn:H1; [|by vm_compute in H1].
  assert (res = CacheMiss 200 (payload 2)) as ->.
  { apply (option_holds (λ p, p.1 = CacheMiss 200 (payload 2)) _ _ H1).
    vm_compute. reflexivity. }
  exists c1. split; [reflexivity|].
  destruct (second_request_hits_iff_stored_under_lookup_key
              sampleHref (sampleOrigin 2) 8 8 1 2 3 4 "t1" "t3"
              "example.test/y" (emptyCache 300 300) _ c1 H1)
    as (h & resp & _ & Hh & Ho & _ & Hstored & _ & _ & _ & Hhit).
  { right. by eauto. }
  assert (h = "http://example.test/y") as ->
    by (vm_compute in Hh; congruence).
  assert (resp = {| statusCode := Some 200%Z; body := payload 2 |}) as ->
    by (unfold sampleOrigin in Ho; congruence).
  split.
  - apply Hstored. vm_compute. discriminate.
  - apply Hhit; vm_compute; [reflexivity|discriminate].
Defined.

(** C10, as stated, fails: a body above [maxElementSize] is not stored, so
    the second request misses although the scheme-prefixed string is its own
    parsed URL. *)
Lemma oversize_body_second_request_misses :
  ∃ c1 c2,
    handleProxy sampleHref (sampleOrigin 400) 8 1 2 "t1"
      (Some "http://example.test/y") (emptyCache 300 300)
    = Some (CacheMiss 200 (payload 400), c1) ∧
    sampleHref (formatUrl "http://example.test/y")
    = Some (formatUrl "http://example.test/y") ∧
    handleProxy sampleHref (sampleOrigin 400) 8 3 4 "t3"
      (Some "http://example.test/y") c1
    = Some (CacheMiss 200 (payload 400), c2).
Proof.
  destruct (handleProxy sampleHref (sampleOrigin 400) 8 1 2 "t1"
              (Some "http://example.test/y") (emptyCache 300 300))
    as [[res c1]|] eqn:H1; [|by vm_compute in H1].
  assert (res = CacheMiss 200 (payload 400)) as ->.
  { apply (option_holds (λ p, p.1 = CacheMiss 200 (payload 400)) _ _ H1).
    vm_compute. reflexivity. }
  assert (fst <$> handleProxy sampleHref (sampleOrigin 400) 8 3 4 "t3"
                    (Some "http://example.test/y") c1
          = Some (CacheMiss 200 (payload 400))) as H2.
  { apply (option_holds
             (λ p, fst <$> handleProxy sampleHref (sampleOrigin 400) 8 3 4 "t3"
                             (Some "http://example.test/y") p.2
                   = Some (CacheMiss 200 (payload 400))) _ _ H1).
    vm_compute. reflexivity. }
  destruct (handleProxy sampleHref (sampleOrigin 400) 8 3 4 "t3"
              (Some "http://example.test/y") c1) as [[res2 c2]|] eqn:H3;
    [|discriminate H2].
  simpl in H2. injection H2 as ->.
  exists c1, c2. split; [reflexivity|]. split; [|exact H3].
  vm_compute. reflexivity.
Qed.


(** * Further properties of the cache *)

(** ** States reached from an empty cache *)

Section consistency.
Implicit Types (c : LRUCache.t) (l : list ref) (r : ref).

Lemma url_content (h h' : list CacheElement.t) r :
  contentOf h' r = contentOf h r →
  CacheElement.url <$> h' !! r = CacheElement.url <$> h !! r.
Proof.
  unfold contentOf. destruct (h' !! r), (h !! r); simpl; try done.
  unfold content. congruence.
Qed.

Lemma heap_lengths_ok_content (h h' : list CacheElement.t) :
  (∀ r, contentOf h' r = contentOf h r) →
  heap_lengths_ok h → heap_lengths_ok h'.
Proof.
  intros Hc Hl r e' He'.
  apply (lengths_ok_content h h' [r] Hc) with (r := r); [|by left|done].
  intros r0 e _. apply Hl.
Qed.

Lemma walk_None fuel (h : list CacheElement.t) : walk fuel h None = [].
Proof. by destruct fuel. Qed.

Lemma dll_nil c : head c = None → tail c = None → dll c [].
Proof.
  intros Hh Ht. split; try done.
  - apply NoDup_nil_2.
  - intros r Hr. by apply elem_of_nil in Hr.
Qed.

(** Well-linkedness only reads [head], [tail] and the store. *)
Lemma well_linked_same c c' :
  head c' = head c → tail c' = tail c → heap c' = heap c →
  well_linked c → well_linked c'.
Proof.
  intros Hh Ht Hp D. unfold well_linked, listOrder in *. rewrite Hh, Hp.
  apply (dll_ext c); try done. intros r Hr. rewrite Hp.
  split; [|done]. by apply D.
Qed.

Lemma emptyCache_consistent (M E : Z) :
  (0 ≤ M)%Z → (E ≤ M)%Z → Consistent (emptyCache M E).
Proof.
  intros HM HE. split; simpl; try done.
  unfold well_linked. simpl. by apply dll_nil.
Qed.

Lemma clear_consistent c : Consistent c → Consistent (clear c).
Proof.
  intros C. destruct (con_config _ C) as [HM HE].
  split; simpl; try done.
  - unfold well_linked, listOrder. simpl. rewrite walk_None. by apply dll_nil.
  - apply C.
  - unfold listOrder. simpl. by rewrite walk_None.
Qed.

Lemma bytesOf_delete (h : list CacheElement.t) l k r :
  l !! k = Some r →
  bytesOf h l = (from_option accounted 0 (h !! r) + bytesOf h (delete k l))%Z.
Proof.
  revert k. induction l as [|x l IH]; intros [|k] Hk; simplify_eq/=; [done|].
  rewrite (IH k Hk). lia.
Qed.

Lemma find_consistent now u c : Consistent c → Consistent (find now u c).2.
Proof.
  intros C. destruct (find_frame now u c) as (Hm & Hs & HM & HE & Hlen & Hc).
  destruct (cacheMap c !! u) as [r|] eqn:Hu.
  - destruct (con_index _ C u r Hu) as [[k Hk]%list_elem_of_lookup_1 _].
    pose proof (find_hit_dll now u c _ k r (con_linked _ C) Hu Hk) as D.
    pose proof (dll_listOrder _ _ D) as Hl.
    split.
    + rewrite HM, HE. apply C.
    + unfold well_linked. by rewrite Hl.
    + intros u' r' Hu'. rewrite Hm in Hu'.
      destruct (con_index _ C u' r' Hu') as [Hin Hurl].
      rewrite Hl, (url_content (heap c)) by done. split; [|done].
      apply list_elem_of_lookup_1 in Hin as [i Hi].
      destruct (decide (i = k)) as [->|Hne].
      * rewrite Hk in Hi. injection Hi as <-. by left.
      * right. apply list_elem_of_lookup.
        destruct (decide (i < k)%nat).
        -- exists i. by rewrite list_lookup_delete_lt.
        -- exists (pred i). rewrite list_lookup_delete_ge by lia.
           by replace (S (pred i)) with i by lia.
    + by apply (heap_lengths_ok_content (heap c)); [|apply C].
    + rewrite Hs, Hl. simpl.
      rewrite (bytesOf_content (heap c)) by (intros; apply Hc).
      rewrite (accounted_content (heap c)) by apply Hc.
      rewrite <-(bytesOf_delete _ _ _ _ Hk). apply C.
    + rewrite Hs, HM. apply C.
  - rewrite (find_miss _ _ _ Hu). simpl. destruct C as [? Hw ? ? ? ?].
    split; try done. by apply (well_linked_same c).
Qed.
Lemma removeLRU_index_ok c l x :
  dll c (l ++ [x]) → index_ok c (l ++ [x]) → index_ok (removeLRU c) l.
Proof.
  intros D Hi u r Hu.
  destruct (removeLRU_dll _ _ _ D) as (lru & Hlru & _ & Hmap & _).
  destruct (removeLRU_frame c) as (_ & _ & _ & _ & _ & Hc).
  rewrite Hmap in Hu. apply lookup_delete_Some in Hu as [Hne Hu].
  destruct (Hi u r Hu) as [Hin Hurl].
  rewrite (url_content (heap c)) by done. split; [|done].
  apply elem_of_app in Hin as [Hin|Hin]; [done|].
  apply list_elem_of_singleton in Hin as ->.
  rewrite Hlru in Hurl. simpl in Hurl. congruence.
Qed.

Lemma evictions_index_ok n c l :
  dll c l → index_ok c l → (n ≤ Datatypes.length l)%nat →
  dll (Nat.iter n removeLRU c) (take (Datatypes.length l - n) l) ∧
  index_ok (Nat.iter n removeLRU c) (take (Datatypes.length l - n) l).
Proof.
  intros D Hi. induction n as [|n IH]; intros Hn.
  - simpl. by rewrite Nat.sub_0_r, firstn_all.
  - destruct IH as [Dn Hin]; [lia|]. simpl.
    assert (is_Some (l !! (Datatypes.length l - S n)%nat)) as [x Hx]
      by (apply lookup_lt_is_Some; lia).
    assert (take (Datatypes.length l - n) l
            = take (Datatypes.length l - S n) l ++ [x]) as Heq.
    { replace (Datatypes.length l - n)%nat
        with (S (Datatypes.length l - S n)) by lia.
      by apply take_S_r. }
    rewrite Heq in Dn, Hin. split.
    + by destruct (removeLRU_dll _ _ _ Dn) as (? & _ & ? & _).
    + by eapply removeLRU_index_ok.
Qed.

Lemma content_fields (h : list CacheElement.t) r (e : CacheElement.t)
    (t : string) (d : list byte) (n : Z) (u : string) :
  h !! r = Some e → contentOf h r = Some (t, d, n, u) →
  CacheElement.data e = d ∧ CacheElement.length e = n ∧
  CacheElement.url e = u.
Proof.
  unfold contentOf. intros ->. simpl. unfold content. intros [= _ -> -> ->].
  done.
Qed.

Lemma lengths_from_content_eq (h h' : list CacheElement.t) r
    (e' : CacheElement.t) :
  h' !! r = Some e' → contentOf h' r = contentOf h r → heap_lengths_ok h →
  CacheElement.length e' = bufferLength (CacheElement.data e').
Proof.
  unfold contentOf. intros He' Hc Hl. rewrite He' in Hc.
  destruct (h !! r) as [e|] eqn:He; [|done]. simpl in Hc. unfold content in Hc.
  assert (CacheElement.data e' = CacheElement.data e) as -> by congruence.
  assert (CacheElement.length e' = CacheElement.length e) as -> by congruence.
  by apply (Hl r).
Qed.

Lemma accounted_from_content (h : list CacheElement.t) r
    (t : string) (d : list byte) (n : Z) (u : string) :
  contentOf h r = Some (t, d, n, u) →
  from_option accounted 0%Z (h !! r) = (n + byteLength u)%Z.
Proof.
  intros Hc. destruct (h !! r) as [e|] eqn:He.
  - destruct (content_fields _ _ _ _ _ _ _ He Hc) as (_ & Hn & Hu).
    simpl. unfold accounted. by rewrite Hn, Hu.
  - unfold contentOf in Hc. by rewrite He in Hc.
Qed.

(** [add] on a consistent state returns, with fuel for one eviction per
    member of the list, and leaves a consistent state. *)
Lemma add_consistent fuel now iso data url c :
  Consistent c → (Datatypes.length (listOrder c) ≤ fuel)%nat →
  ∃ b c', add fuel now iso data url c = Some (b, c') ∧ Consistent c' ∧
          (Datatypes.length (heap c') ≤ S (Datatypes.length (heap c)))%nat ∧
          if b : bool
          then ∃ n, (n ≤ Datatypes.length (listOrder c))%nat ∧
                 listOrder c' =
                 Datatypes.length (heap c)
                   :: take (Datatypes.length (listOrder c) - n) (listOrder c)
          else c' = c.
Proof.
  intros C Hfuel. unfold add.
  destruct (bufferLength data + byteLength url >? maxElementSize c)%Z eqn:Hbig.
  { exists false, c. split_and!; [done|done|lia|done]. }
  assert (bufferLength data + byteLength url ≤ maxElementSize c)%Z as Hfit
    by (rewrite Z.gtb_ltb in Hbig; by apply Z.ltb_ge).
  destruct (con_config _ C) as [HM HE].
  destruct (removeExisting_frame url c)
    as (_ & _ & Hp0 & _ & _ & HM0 & HE0 & Hsub0 & _ & Hs0).
  pose proof (removeExisting_dll url c _ (con_linked _ C)) as D0.
  set (sz := (bufferLength data + byteLength url)%Z) in *.
  set (c0 := removeExisting url c) in *.
  set (l := listOrder c) in *.
  assert (index_ok c0 l) as Hi0.
  { intros u r Hu. rewrite Hp0. by apply (con_index _ C), Hsub0. }
  assert (0 ≤ from_option accounted 0
                (cacheMap c !! url ≫= λ r, deref c r))%Z as Hnn.
  { destruct (cacheMap c !! url) as [ex|]; simpl; [|done].
    destruct (deref c ex) as [e|] eqn:He; simpl; [|done].
    by apply accounted_nonneg, (con_length _ C ex). }
  destruct (ensureSpace_loop sz c0 l) as (n & Hn & Hrun & _ & Hexit & Dn & Hbn);
    try done.
  { rewrite Hp0. intros r e _. apply (con_length _ C). }
  { rewrite Hp0, Hs0. pose proof (con_bytes _ C). fold l in H. lia. }
  { rewrite HM0. lia. }
  rewrite (Hrun fuel) by (fold l in Hfuel; lia).
  destruct (evictions_index_ok n c0 l D0 Hi0 Hn) as [_ Hin].
  destruct (evictions_frame n c0) as (_ & _ & HMn & HEn & Hlenn & Hcn & _).
  set (c2 := Nat.iter n removeLRU c0) in *.
  set (l2 := take (Datatypes.length l - n) l) in *.
  destruct (insertFront_frame now iso data url sz c2)
    as (Hmap & Hsz & _ & _ & HM' & HE' & Hlen' & _ & Hnew & Hold).
  pose proof (insertFront_dll now iso data url sz c2 l2 Dn) as D'.
  set (c' := insertFront now iso data url sz c2) in *.
  pose proof (dll_listOrder _ _ D') as Hl'.
  exists true, c'. split; [done|].
  split; [|split; [rewrite Hlen', Hlenn, Hp0; lia|]]; cycle 1.
  { exists n. split; [done|]. by rewrite Hl', Hlenn, Hp0. }
  split.
  - rewrite HM', HE', HMn, HEn, HM0, HE0. done.
  - unfold well_linked. by rewrite Hl'.
  - intros u r Hu. rewrite Hl'. rewrite Hmap in Hu.
    destruct (decide (u = url)) as [->|Hne].
    + rewrite lookup_insert_eq in Hu. injection Hu as <-. split; [by left|].
      pose proof Hnew as Hnew'. unfold contentOf in Hnew'.
      destruct (heap c' !! Datatypes.length (heap c2)) as [e|] eqn:He; [|done].
      destruct (content_fields _ _ _ _ _ _ _ He Hnew) as (_ & _ & Hurl).
      simpl. by rewrite Hurl.
    + rewrite lookup_insert_ne in Hu by done.
      destruct (Hin u r Hu) as [Hr Hurl]. split; [by right|].
      rewrite (url_content (heap c2)); [done|]. apply Hold.
      by apply (dll_alloc_lt _ _ _ Dn).
  - intros r e He.
    assert (r < S (Datatypes.length (heap c2)))%nat as Hr
      by (rewrite <-Hlen'; by eapply lookup_lt_Some).
    destruct (decide (r = Datatypes.length (heap c2))) as [->|Hne].
    + by destruct (content_fields _ _ _ _ _ _ _ He Hnew) as (-> & -> & _).
    + apply (lengths_from_content_eq (heap c) (heap c') r); [done| |apply C].
      rewrite Hold by lia. by rewrite Hcn, Hp0.
  - rewrite Hsz, Hl'. simpl. rewrite (accounted_from_content _ _ _ _ _ _ Hnew).
    rewrite (bytesOf_content (heap c0) (heap c') l2).
    + unfold sz. lia.
    + intros r Hr. rewrite Hold by (by apply (dll_alloc_lt _ _ _ Dn)).
      apply Hcn.
  - rewrite Hsz, HM', HMn. lia.
Qed.

Lemma step_consistent fuel op c :
  Consistent c → (Datatypes.length (heap c) ≤ fuel)%nat →
  ∃ c', step fuel op c = Some c' ∧ Consistent c' ∧
        (Datatypes.length (heap c') ≤ S (Datatypes.length (heap c)))%nat.
Proof.
  intros C Hfuel. destruct op as [now iso data url|now url|]; simpl.
  - destruct (add_consistent fuel now iso data url c C)
      as (b & c' & -> & C' & Hlen & _).
    + pose proof (dll_length _ _ (con_linked _ C)). lia.
    + exists c'. done.
  - exists (find now url c).2. split; [done|].
    split; [by apply find_consistent|].
    destruct (find_frame now url c) as (_ & _ & _ & _ & -> & _). lia.
  - exists (clear c). split; [done|]. split; [by apply clear_consistent|].
    simpl. lia.
Qed.

Lemma run_consistent fuel ops c :
  Consistent c →
  (Datatypes.length (heap c) + Datatypes.length ops ≤ fuel)%nat →
  ∃ c', run fuel ops c = Some c' ∧ Consistent c'.
Proof.
  revert c. induction ops as [|op ops IH]; intros c C Hfuel; simpl in *.
  - by exists c.
  - destruct (step_consistent fuel op c C) as (c1 & -> & C1 & Hlen); [lia|].
    simpl. apply IH; [done|lia].
Qed.

(** Every sequence of [add], [find] and [clear] on an empty cache with
    [0 ≤ maxSize] and [maxElementSize ≤ maxSize] runs to the end, with fuel
    for one eviction per operation, and ends in a consistent state: the
    list is well linked, every element of the index is a member of the list
    under its own URL, and [cacheSize] is at most the bytes of the list and
    at most [maxSize]. *)
Theorem reachable_consistent (M E : Z) (ops : list Op) (fuel : nat) :
  (0 ≤ M)%Z → (E ≤ M)%Z → (Datatypes.length ops ≤ fuel)%nat →
  ∃ c, run fuel ops (emptyCache M E) = Some c ∧ Consistent c.
Proof.
  intros HM HE Hfuel. apply run_consistent; [|simpl; lia].
  by apply emptyCache_consistent.
Qed.

Lemma reachable_consistent_witness :
  (0 ≤ 300)%Z ∧ (300 ≤ 300)%Z ∧
  (Datatypes.length [OpAdd 1 "t1" (payload 100) "a";
                     OpAdd 2 "t2" (payload 100) "a"; OpFind 3 "a"; OpClear]
   ≤ 8)%nat ∧
  ∃ c, run 8 [OpAdd 1 "t1" (payload 100) "a";
              OpAdd 2 "t2" (payload 100) "a"; OpFind 3 "a"; OpClear]
         (emptyCache 300 300) = Some c ∧ Consistent c.
Proof.
  assert (0 ≤ 300)%Z as HM by (intros H; discriminate H).
  assert (300 ≤ 300)%Z as HE by (intros H; discriminate H).
  assert (Datatypes.length [OpAdd 1 "t1" (payload 100) "a";
                            OpAdd 2 "t2" (payload 100) "a"; OpFind 3 "a";
                            OpClear] ≤ 8)%nat as Hf by (simpl; lia).
  split; [exact HM|]. split; [exact HE|]. split; [exact Hf|].
  exact (reachable_consistent 300 300 _ 8 HM HE Hf).
Defined.
End consistency.


(** ** What add and the other operations keep *)

Section frames.
Implicit Types (c : LRUCache.t) (l : list ref) (r : ref).

(** The loop of [add] is a number of calls of [removeLRU]. *)
Lemma ensureSpace_iter fuel sz c c' :
  ensureSpace fuel sz c = Some c' → ∃ n, c' = Nat.iter n removeLRU c.
Proof.
  revert c. induction fuel as [|fuel IH]; intros c; simpl;
    destruct (cacheSize c + sz >? maxSize c)%Z; try done.
  - intros [= <-]. by exists 0%nat.
  - intros [n ->]%IH. exists (S n). by rewrite Nat.iter_succ_r.
  - intros [= <-]. by exists 0%nat.
Qed.

Lemma add_frame fuel now iso data url c b c' :
  add fuel now iso data url c = Some (b, c') →
  hits c' = hits c ∧ misses c' = misses c ∧
  maxSize c' = maxSize c ∧ maxElementSize c' = maxElementSize c ∧
  (Datatypes.length (heap c) ≤ Datatypes.length (heap c'))%nat ∧
  ∀ r, (r < Datatypes.length (heap c))%nat → content_of c' r = content_of c r.
Proof.
  unfold add.
  destruct (bufferLength data + byteLength url >? maxElementSize c)%Z.
  { intros [= <- <-]. split_and!; done. }
  destruct (ensureSpace _ _ _) as [c2|] eqn:Hloop; [|done].
  intros [= <- <-]. apply ensureSpace_iter in Hloop as [n ->].
  destruct (removeExisting_frame url c)
    as (_ & _ & Hp0 & Hh0 & Hm0 & HM0 & HE0 & _).
  destruct (evictions_frame n (removeExisting url c))
    as (Hh & Hm & HM & HE & Hlen & Hc & _).
  match goal with
  | |- context [insertFront now iso data url ?sz ?c2] =>
      destruct (insertFront_frame now iso data url sz c2)
        as (_ & _ & Hh' & Hm' & HM' & HE' & Hlen' & _ & _ & Hold)
  end.
  rewrite Hp0 in Hlen.
  split_and!; try congruence; [lia|].
  intros r Hr. rewrite Hold by lia. by rewrite Hc, Hp0.
Qed.

Lemma find_counters now u c :
  (hits (find now u c).2 + misses (find now u c).2)%Z
  = (hits c + misses c + 1)%Z.
Proof.
  destruct (cacheMap c !! u) as [e|] eqn:Hu.
  - rewrite (find_hit _ _ _ _ Hu). simpl.
    match goal with
    | |- context [moveToFront e ?c0] =>
        destruct (moveToFront_frame e c0) as (_ & _ & -> & -> & _)
    end.
    simpl. lia.
  - rewrite (find_miss _ _ _ Hu). simpl. lia.
Qed.

Lemma step_frame fuel op c c' :
  step fuel op c = Some c' →
  maxSize c' = maxSize c ∧ maxElementSize c' = maxElementSize c ∧
  (Datatypes.length (heap c) ≤ Datatypes.length (heap c'))%nat ∧
  ∀ r, (r < Datatypes.length (heap c))%nat → content_of c' r = content_of c r.
Proof.
  destruct op as [now iso data url|now url|]; simpl.
  - destruct (add _ _ _ _ _ _) as [[b c1]|] eqn:Hadd; [|done].
    intros [= <-]. by destruct (add_frame _ _ _ _ _ _ _ _ Hadd) as (_ & _ & ?).
  - intros [= <-].
    destruct (find_frame now url c) as (_ & _ & -> & -> & -> & Hc).
    split_and!; try done.
  - by intros [= <-].
Qed.

(** The bytes, URL, [length] and time stamp of an element never change: not
    by later insertions, lookups or evictions, and not by [clear].  A
    reference obtained from [find] keeps reading the same bytes. *)
Theorem elements_are_immutable (fuel : nat) (ops : list Op) c c' r :
  run fuel ops c = Some c' →
  (r < Datatypes.length (heap c))%nat →
  content_of c' r = content_of c r.
Proof.
  revert c. induction ops as [|op ops IH]; intros c; simpl.
  - by intros [= <-].
  - destruct (step fuel op c) as [c1|] eqn:Hstep; [|done]. simpl.
    intros Hrun Hr.
    destruct (step_frame _ _ _ _ Hstep) as (_ & _ & Hlen & Hc).
    rewrite (IH c1 Hrun) by lia. by apply Hc.
Qed.

(** [hits + misses] counts the lookups since the last [clear]: each [find]
    adds one to exactly one of the two, [add] touches neither, and [clear]
    resets both. *)
Theorem counters_count_lookups (fuel : nat) (ops : list Op) c c' :
  run fuel ops c = Some c' →
  (hits c' + misses c')%Z = lookupsSinceClear ops (hits c + misses c).
Proof.
  revert c. induction ops as [|op ops IH]; intros c; simpl.
  - by intros [= <-].
  - destruct (step fuel op c) as [c1|] eqn:Hstep; [|done]. simpl.
    intros Hrun. rewrite (IH c1 Hrun).
    destruct op as [now iso data url|now url|]; simpl in *.
    + destruct (add _ _ _ _ _ _) as [[b c2]|] eqn:Hadd; [|done].
      injection Hstep as <-.
      by destruct (add_frame _ _ _ _ _ _ _ _ Hadd) as (-> & -> & _).
    + injection Hstep as <-. by rewrite find_counters.
    + by injection Hstep as <-.
Qed.
End frames.

(** ** Insertion, lookup and eviction together *)

Section composition.
Implicit Types (c : LRUCache.t) (l : list ref) (r : ref).

(** Insert/lookup round trip: after an [add] that returned true, the next
    [find] of the same URL hits and returns an element with the bytes and
    the time stamp of that [add]. *)
Theorem add_then_find_returns_bytes (fuel : nat) (now now' : Z)
    (iso : string) (data : list byte) (url : string) c c' :
  add fuel now iso data url c = Some (true, c') →
  ∃ e, (find now' url c').1 = Some e ∧
    CacheElement.data <$> deref (find now' url c').2 e = Some data ∧
    CacheElement.timestamp <$> deref (find now' url c').2 e = Some iso.
Proof.
  intros Hadd. apply add_index in Hadd as [_ Hadd].
  destruct (bufferLength data + byteLength url >? maxElementSize c)%Z;
    [by destruct Hadd|].
  destruct Hadd as (_ & e & He & Hcontent & _). exists e.
  destruct (find_frame now' url c') as (_ & _ & _ & _ & _ & Hc).
  specialize (Hc e). rewrite Hcontent in Hc.
  rewrite (find_hit _ _ _ _ He) in *. simpl in *. split; [done|].
  unfold contentOf in Hc.
  destruct (heap _ !! e) as [el|]; [|done]. simpl in *.
  unfold content in Hc. split; congruence.
Qed.

Lemma add_then_find_returns_bytes_witness :
  ∃ c', add 8 1 "t1" (payload 100) "a" (emptyCache 300 300) = Some (true, c') ∧
    ∃ e, (find 2 "a" c').1 = Some e ∧
      CacheElement.data <$> deref (find 2 "a" c').2 e = Some (payload 100) ∧
      CacheElement.timestamp <$> deref (find 2 "a" c').2 e = Some "t1".
Proof.
  destruct (add 8 1 "t1" (payload 100) "a" (emptyCache 300 300))
    as [[b c']|] eqn:Hadd; [|by vm_compute in Hadd].
  assert (b = true) as ->.
  { apply (option_holds (λ p, p.1 = true) _ _ Hadd). vm_compute. reflexivity. }
  exists c'. split; [reflexivity|].
  exact (add_then_find_returns_bytes 8 1 2 "t1" (payload 100) "a" _ c' Hadd).
Defined.

(** [add] evicts from the tail only: in a consistent state, after an [add]
    that returned true the list is the new element followed by the old list
    without its last [n] members, for some [n]; the members that stay keep
    their order, and a member is evicted only if every member behind it
    is. *)
Theorem add_evicts_from_the_tail_only (fuel : nat) (now : Z) (iso : string)
    (data : list byte) (url : string) c c' :
  Consistent c → (Datatypes.length (listOrder c) ≤ fuel)%nat →
  add fuel now iso data url c = Some (true, c') →
  ∃ n, (n ≤ Datatypes.length (listOrder c))%nat ∧
    listOrder c' =
    Datatypes.length (heap c)
      :: take (Datatypes.length (listOrder c) - n) (listOrder c).
Proof.
  intros C Hfuel Hadd.
  destruct (add_consistent fuel now iso data url c C Hfuel)
    as (b & c'' & Hadd' & _ & _ & Hlist).
  rewrite Hadd in Hadd'. by injection Hadd' as <- <-.
Qed.

Lemma add_evicts_from_the_tail_only_witness :
  ∃ c, threeEntries 343 300 = Some c ∧ Consistent c ∧
    (Datatypes.length (listOrder c) ≤ 8)%nat ∧
    ∃ c', add 8 5 "t5" (payload 140) "d" c = Some (true, c') ∧
      ∃ n, (n ≤ Datatypes.length (listOrder c))%nat ∧
        listOrder c' =
        Datatypes.length (heap c)
          :: take (Datatypes.length (listOrder c) - n) (listOrder c).
Proof.
  destruct (run_consistent 8
              [OpAdd 1 "t1" (payload 100) "a"; OpAdd 2 "t2" (payload 100) "b";
               OpAdd 3 "t3" (payload 100) "c"] (emptyCache 343 300))
    as (c & Hc & C).
  { apply emptyCache_consistent; intros H; discriminate H. }
  { simpl. lia. }
  exists c. split; [exact Hc|]. split; [exact C|].
  assert (Datatypes.length (listOrder c) ≤ 8)%nat as Hf.
  { assert (Datatypes.length (listOrder c) = 3%nat) as ->; [|lia].
    by_evaluation Hc. }
  split; [exact Hf|].
  destruct (add 8 5 "t5" (payload 140) "d" c) as [[b c']|] eqn:Hadd.
  - assert (b = true) as ->.
    { assert (fst <$> add 8 5 "t5" (payload 140) "d" c = Some true) as Hb
        by by_evaluation Hc.
      rewrite Hadd in Hb. by injection Hb. }
    exists c'. split; [reflexivity|].
    exact (add_evicts_from_the_tail_only 8 5 "t5" (payload 140) "d" c c'
             C Hf Hadd).
  - assert (is_Some (add 8 5 "t5" (payload 140) "d" c)) as [x Hx]
      by returns_by_evaluation Hc.
    rewrite Hadd in Hx. discriminate Hx.
Defined.

(** An entry that passes the size check but is larger than what [maxSize]
    leaves is never inserted into an empty list: the loop of [add] calls
    [removeLRU], which returns at once on the empty list, and the loop
    condition stays true, so [add] does not return, whatever the fuel. *)
Theorem add_spins_on_empty_list (fuel : nat) (now : Z) (iso : string)
    (data : list byte) (url : string) c :
  tail c = None → cacheMap c !! url = None →
  (bufferLength data + byteLength url ≤ maxElementSize c)%Z →
  (cacheSize c + (bufferLength data + byteLength url) > maxSize c)%Z →
  add fuel now iso data url c = None.
Proof.
  intros Ht Hu Hfit Hover. unfold add.
  assert ((bufferLength data + byteLength url >? maxElementSize c)%Z = false)
    as -> by (rewrite Z.gtb_ltb; by apply Z.ltb_ge).
  unfold removeExisting. rewrite Hu.
  assert (ensureSpace fuel (bufferLength data + byteLength url) c = None)
    as ->; [|done].
  induction fuel as [|fuel IH]; simpl;
    rewrite (proj2 (Z.gtb_gt _ _) Hover); [done|].
  by rewrite removeLRU_empty.
Qed.

Lemma add_spins_on_empty_list_witness :
  tail (emptyCache 100 300) = None ∧
  cacheMap (emptyCache 100 300) !! "a" = None ∧
  (bufferLength (payload 200) + byteLength "a"
   ≤ maxElementSize (emptyCache 100 300))%Z ∧
  (cacheSize (emptyCache 100 300)
   + (bufferLength (payload 200) + byteLength "a")
   > maxSize (emptyCache 100 300))%Z ∧
  add 8 1 "t1" (payload 200) "a" (emptyCache 100 300) = None.
Proof.
  assert (bufferLength (payload 200) + byteLength "a"
          ≤ maxElementSize (emptyCache 100 300))%Z as Hfit
    by (vm_compute; intros H; discriminate H).
  assert (cacheSize (emptyCache 100 300)
          + (bufferLength (payload 200) + byteLength "a")
          > maxSize (emptyCache 100 300))%Z as Hover
    by (vm_compute; reflexivity).
  split; [reflexivity|]. split; [reflexivity|].
  split; [exact Hfit|]. split; [exact Hover|].
  exact (add_spins_on_empty_list 8 1 "t1" (payload 200) "a"
           (emptyCache 100 300) eq_refl eq_refl Hfit Hover).
Defined.

Lemma head_moveToFront e c : head (moveToFront e c) = Some e.
Proof.
  unfold moveToFront. case_decide; [done|].
  repeat (case_match; simpl); done.
Qed.

(** Promoting an element twice is promoting it once. *)
Theorem moveToFront_idempotent (e : ref) c :
  moveToFront e (moveToFront e c) = moveToFront e c.
Proof.
  unfold moveToFront at 1. by rewrite decide_True by apply head_moveToFront.
Qed.


Lemma elements_are_immutable_witness :
  ∃ c c', threeEntries 343 300 = Some c ∧
    run 8 [OpFind 4 "a"; OpAdd 5 "t5" (payload 299) "d"; OpClear] c = Some c' ∧
    (1 < Datatypes.length (heap c))%nat ∧
    content_of c' 1%nat = content_of c 1%nat.
Proof.
  destruct (run_consistent 8
              [OpAdd 1 "t1" (payload 100) "a"; OpAdd 2 "t2" (payload 100) "b";
               OpAdd 3 "t3" (payload 100) "c"] (emptyCache 343 300))
    as (c & Hc & C).
  { apply emptyCache_consistent; intros H; discriminate H. }
  { simpl. lia. }
  assert (Datatypes.length (heap c) = 3%nat) as Hlen by by_evaluation Hc.
  destruct (run_consistent 8
              [OpFind 4 "a"; OpAdd 5 "t5" (payload 299) "d"; OpClear] c C)
    as (c' & Hrun & _).
  { rewrite Hlen. simpl. lia. }
  assert (1 < Datatypes.length (heap c))%nat as Hr by (rewrite Hlen; lia).
  exists c, c'. split; [exact Hc|]. split; [exact Hrun|]. split; [exact Hr|].
  exact (elements_are_immutable 8 _ c c' 1%nat Hrun Hr).
Defined.

Lemma counters_count_lookups_witness :
  ∃ c, oneHitOneMiss = Some c ∧
    (hits c + misses c)%Z
    = lookupsSinceClear [OpAdd 1 "t1" (payload 100) "a"; OpFind 2 "a";
                         OpFind 3 "b"]
        (hits (emptyCache 300 300) + misses (emptyCache 300 300)).
Proof.
  apply option_exists; [vm_compute; eauto|]. intros c Hc.
  exact (counters_count_lookups 8 _ (emptyCache 300 300) c Hc).
Defined.
End composition.


(** ** The request pipeline *)

Section pipeline.
Implicit Types (c : LRUCache.t) (r : ref).
Variable parseHref : string → option string.
Variable origin : string → option OriginResponse.

Lemma startsWithCI_append (p t : string) :
  startsWithCI p (String.append p t) = startsWithCI p p.
Proof. induction p as [|a p IH]; simpl; [done|]. by rewrite IH. Qed.

Lemma hasScheme_formatUrl (t : string) : hasScheme (formatUrl t) = true.
Proof.
  unfold formatUrl. destruct (hasScheme t) eqn:Ht; [done|].
  unfold hasScheme. by rewrite startsWithCI_append.
Qed.

(** The lookup key always carries a scheme, and formatting a key again
    changes nothing. *)
Theorem formatUrl_has_scheme (t : string) :
  hasScheme (formatUrl t) = true ∧ formatUrl (formatUrl t) = formatUrl t.
Proof.
  pose proof (hasScheme_formatUrl t) as H.
  split; [done|]. unfold formatUrl at 1. by rewrite H.
Qed.

(** A request whose key is in the index is answered from the cache with the
    element's bytes and time stamp, and the answer does not depend on the
    origin, on the URL parser, on the fuel or on the clock of an insertion:
    neither is consulted. *)
Theorem hit_never_consults_the_origin
    (parseHref' : string → option string)
    (origin' : string → option OriginResponse)
    (fuel fuel' : nat) (now now' now'' : Z) (iso iso' : string)
    (a : ascii) (t : string) c r (el : CacheElement.t) :
  cacheMap c !! formatUrl (String a t) = Some r → deref c r = Some el →
  handleProxy parseHref origin fuel now now' iso (Some (String a t)) c
  = Some (CacheHit (CacheElement.data el) (CacheElement.timestamp el)
            (formatUrl (String a t)),
          (find now (formatUrl (String a t)) c).2) ∧
  handleProxy parseHref' origin' fuel' now now'' iso' (Some (String a t)) c
  = handleProxy parseHref origin fuel now now' iso (Some (String a t)) c.
Proof.
  intros Hr Hel.
  assert (∀ ph og fl nw io,
            handleProxy ph og fl now nw io (Some (String a t)) c
            = Some (CacheHit (CacheElement.data el) (CacheElement.timestamp el)
                      (formatUrl (String a t)),
                    (find now (formatUrl (String a t)) c).2)) as H.
  { intros ph og fl nw io. unfold handleProxy.
    destruct (find_frame now (formatUrl (String a t)) c)
      as (_ & _ & _ & _ & _ & Hc).
    specialize (Hc r). rewrite (find_hit _ _ _ _ Hr) in *. simpl in *.
    unfold contentOf in Hc. rewrite Hel in Hc.
    destruct (heap (moveToFront r _) !! r) as [el'|]; [|done]. simpl in Hc.
    unfold content in Hc.
    assert (CacheElement.data el' = CacheElement.data el) as -> by congruence.
    assert (CacheElement.timestamp el' = CacheElement.timestamp el) as ->
      by congruence.
    done. }
  split; [apply H|]. by rewrite !H.
Qed.


(** The outcomes of a /proxy request.  On a consistent state, with fuel for
    one eviction per object of the store, the cache operations of the
    request terminate and leave a consistent state.  The client is left
    without an answer in exactly one case: the lookup missed, the origin
    answered and the scheme-prefixed target is not a legal header value; in
    every other case the client is answered. *)
Theorem proxy_request_outcomes (fuel : nat) (now now' : Z) (iso : string)
    (targetUrl : option string) c :
  Consistent c → (Datatypes.length (heap c) ≤ fuel)%nat →
  ∃ res c', handleProxy parseHref origin fuel now now' iso targetUrl c
            = Some (res, c') ∧ Consistent c' ∧
    (res = Unanswered ↔
     ∃ t h resp, targetUrl = Some t ∧ t ≠ String.EmptyString ∧
       cacheMap c !! formatUrl t = None ∧
       parseHref (formatUrl t) = Some h ∧ origin h = Some resp ∧
       legalHeaderValue (formatUrl t) = false).
Proof.
  intros C Hfuel. unfold handleProxy.
  destruct targetUrl as [[|a t]|].
  - eexists _, _. split; [done|]. split; [done|]. split; [done|].
    by intros (t & h & resp & [= <-] & Ht & _).
  - set (f := formatUrl (String a t)).
    pose proof (find_consistent now f c C) as C1.
    destruct (find_frame now f c) as (_ & _ & _ & _ & Hlen & _).
    destruct (cacheMap c !! f) as [r|] eqn:Hf.
    + rewrite (find_hit _ _ _ _ Hf) in *. simpl in *.
      destruct (heap _ !! r) as [el|];
        (eexists _, _; split; [done|]; split; [done|]; split; [done|]);
        intros (tu & h & resp & [= <-] & _ & Hnone & _);
        fold f in Hnone; congruence.
    + rewrite (find_miss _ _ _ Hf) in *. simpl in *.
      destruct (parseHref f) as [h|] eqn:Hh.
      * destruct (origin h) as [resp|] eqn:Ho.
        -- destruct (add_consistent fuel now' iso (body resp) h _ C1)
             as (b & c2 & -> & C2 & _).
           { pose proof (dll_length _ _ (con_linked _ C1)). simpl in *. lia. }
           destruct (legalHeaderValue f) eqn:Hlegal;
             (eexists _, _; split; [done|]; split; [done|]).
           ++ split; [done|].
              intros (tu & h0 & resp0 & [= <-] & _ & _ & _ & _ & Hl).
              fold f in Hl. congruence.
           ++ split; [|done]. intros _.
              exists (String a t), h, resp. by split_and!.
        -- eexists _, _. split; [done|]. split; [done|]. split; [done|].
           intros (tu & h0 & resp0 & [= <-] & _ & _ & Hh0 & Ho0 & _).
           fold f in Hh0. congruence.
      * eexists _, _. split; [done|]. split; [done|]. split; [done|].
        intros (tu & h0 & resp0 & [= <-] & _ & _ & Hh0 & _).
        fold f in Hh0. congruence.
  - eexists _, _. split; [done|]. split; [done|]. split; [done|].
    by intros (t & h & resp & H & _).
Qed.
End pipeline.

Lemma hit_never_consults_the_origin_witness :
  ∃ c, oneProxied = Some c ∧ ∃ el,
    cacheMap c !! formatUrl "example.test/y" = Some 0%nat ∧
    deref c 0%nat = Some el ∧
    handleProxy sampleHref (sampleOrigin 2) 8 3 4 "t3"
      (Some "example.test/y") c
    = Some (CacheHit (CacheElement.data el) (CacheElement.timestamp el)
              (formatUrl "example.test/y"),
            (find 3 (formatUrl "example.test/y") c).2) ∧
    handleProxy noHref noOrigin 0 3 7 "t7" (Some "example.test/y") c
    = handleProxy sampleHref (sampleOrigin 2) 8 3 4 "t3"
        (Some "example.test/y") c.
Proof.
  apply option_exists; [vm_compute; eauto|]. intros c Hc.
  assert (cacheMap c !! formatUrl "example.test/y" = Some 0%nat) as Hr
    by by_evaluation Hc.
  destruct (deref c 0%nat) as [el|] eqn:Hel.
  - exists el. split; [exact Hr|]. split; [reflexivity|].
    exact (hit_never_consults_the_origin sampleHref (sampleOrigin 2)
             noHref noOrigin 8 0 3 4 7 "t3" "t7" "e" "xample.test/y"
             c 0%nat el Hr Hel).
  - assert (is_Some (deref c 0%nat)) as [x Hx] by returns_by_evaluation Hc.
    rewrite Hel in Hx. discriminate Hx.
Defined.


Lemma proxy_request_outcomes_witness :
  Consistent (emptyCache 300 300) ∧
  (Datatypes.length (heap (emptyCache 300 300)) ≤ 8)%nat ∧
  ∃ c',
    handleProxy lineFeedHref (sampleOrigin 2) 8 1 2 "t1"
      (Some lineFeedTarget) (emptyCache 300 300) = Some (Unanswered, c') ∧
    Consistent c'.
Proof.
  assert (Consistent (emptyCache 300 300)) as C.
  { apply emptyCache_consistent; intros H; discriminate H. }
  assert (Datatypes.length (heap (emptyCache 300 300)) ≤ 8)%nat as Hf
    by (simpl; lia).
  split; [exact C|]. split; [exact Hf|].
  destruct (proxy_request_outcomes lineFeedHref (sampleOrigin 2) 8 1 2 "t1"
              (Some lineFeedTarget) (emptyCache 300 300) C Hf)
    as (res & c' & Hres & C' & Hun).
  assert (res = Unanswered) as ->.
  { apply Hun.
    exists lineFeedTarget, "http://example.test/y",
      {| statusCode := Some 200%Z; body := payload 2 |}.
    split; [reflexivity|]. split; [discriminate|].
    split_and!; vm_compute; reflexivity. }
  exists c'. split; [exact Hres|exact C'].
Defined.

(** ** The routes of the server *)

Section server_facts.
Implicit Types (c : LRUCache.t).
Variable parseRequestUrl : string → option (string * option string).
Variable parseHref : string → option string.
Variable origin : string → option OriginResponse.
Variable parseQuery : string → option (option string).

(** [getTargetUrl] returns the scheme-prefixed value of a non-empty
    [targetUrl] parameter; every failure, the missing parameter included,
    leaves the function as the same error, "Invalid target URL" with status
    400: the [catch] replaces the "No target URL provided" error thrown
    inside the [try]. *)
Theorem getTargetUrl_outcomes (reqUrl : string) :
  match getTargetUrl parseQuery reqUrl with
  | Returned s =>
      ∃ t, parseQuery reqUrl = Some (Some t) ∧ t ≠ String.EmptyString ∧
           s = formatUrl t ∧ hasScheme s = true
  | Threw e =>
      e = ProxyErrorExn "Invalid target URL" 400 ∧
      (parseQuery reqUrl = None ∨ parseQuery reqUrl = Some None ∨
       parseQuery reqUrl = Some (Some String.EmptyString))
  end.
Proof.
  unfold getTargetUrl, getTargetUrl_try.
  destruct (parseQuery reqUrl) as [[[|a t]|]|]; simpl; try by eauto.
  assert (formatUrl (String a t)
          = if negb (hasScheme (String a t))
            then String.append "http://" (String a t) else String a t) as Hf
    by (unfold formatUrl; by destruct (hasScheme (String a t))).
  pose proof (hasScheme_formatUrl (String a t)) as Hs. rewrite Hf in Hs.
  destruct (negb (hasScheme (String a t)));
    exists (String a t); by rewrite Hf.
Qed.

(** Only the /proxy route with a target URL reaches the cache: a request
    after which the cache differs is not a preflight, has a URL that parses
    to the path [/proxy] with a non-empty [targetUrl], and is answered by
    the pipeline.  The method is not looked at beyond [OPTIONS]. *)
Theorem only_proxy_route_reaches_the_cache (fuel : nat) (now now' : Z)
    (iso iso' : string) (isRunning : bool) (port : Z) (method : string)
    (url : option string) c (reply : Reply) c' :
  handleRequest parseRequestUrl parseHref origin fuel now now' iso iso'
    isRunning port method url c = Some (reply, c') →
  c' ≠ c →
  method ≠ "OPTIONS" ∧
  ∃ u t res, url = Some u ∧ parseRequestUrl u = Some ("/proxy", Some t) ∧
    t ≠ String.EmptyString ∧ reply = Proxied res ∧
    handleProxy parseHref origin fuel now now' iso (Some t) c = Some (res, c').
Proof.
  unfold handleRequest. intros H Hne.
  destruct (String.eqb method "OPTIONS") eqn:Hm; [by injection H as _ <-|].
  apply String.eqb_neq in Hm. split; [done|].
  destruct url as [[|a u]|]; try by injection H as _ <-.
  destruct (parseRequestUrl (String a u)) as [[pathname targetUrl]|] eqn:Hp;
    [|by injection H as _ <-].
  destruct (String.eqb pathname "/"); [by injection H as _ <-|].
  destruct (String.eqb pathname "/status"); [by injection H as _ <-|].
  destruct (String.eqb pathname "/favicon.ico"); [by injection H as _ <-|].
  destruct (String.eqb pathname "/proxy") eqn:Hpath;
    [|by injection H as _ <-].
  apply String.eqb_eq in Hpath as ->.
  destruct (handleProxy _ _ _ _ _ _ targetUrl c) as [[res c1]|] eqn:Hproxy;
    [|done].
  injection H as <- <-.
  destruct targetUrl as [[|b t]|];
    try (unfold handleProxy in Hproxy; by injection Hproxy as _ <-).
  exists (String a u), (String b t), res. done.
Qed.
End server_facts.

Lemma only_proxy_route_reaches_the_cache_witness :
  handleRequest sampleRequestUrl sampleHref noOrigin 8 1 2 "t1" "t0" true 8080
    "POST" (Some "example.test/y") (emptyCache 300 300)
  = Some (Proxied (ErrorEnvelope 500),
          with_misses 1 (emptyCache 300 300)) ∧
  with_misses 1 (emptyCache 300 300) ≠ emptyCache 300 300 ∧
  "POST" ≠ "OPTIONS" ∧
  ∃ u t res, Some "example.test/y" = Some u ∧
    sampleRequestUrl u = Some ("/proxy", Some t) ∧
    t ≠ String.EmptyString ∧ Proxied (ErrorEnvelope 500) = Proxied res ∧
    handleProxy sampleHref noOrigin 8 1 2 "t1" (Some t) (emptyCache 300 300)
    = Some (res, with_misses 1 (emptyCache 300 300)).
Proof.
  assert (handleRequest sampleRequestUrl sampleHref noOrigin 8 1 2 "t1" "t0"
            true 8080 "POST" (Some "example.test/y") (emptyCache 300 300)
          = Some (Proxied (ErrorEnvelope 500),
                  with_misses 1 (emptyCache 300 300))) as H
    by (vm_compute; reflexivity).
  assert (with_misses 1 (emptyCache 300 300) ≠ emptyCache 300 300) as Hne
    by (intros Heq; discriminate Heq).
  split; [exact H|]. split; [exact Hne|].
  exact (only_proxy_route_reaches_the_cache sampleRequestUrl sampleHref
           noOrigin 8 1 2 "t1" "t0" true 8080 "POST" (Some "example.test/y")
           (emptyCache 300 300) _ _ H Hne).
Defined.

(** ** The browser-side store *)

Section storage_facts.
Variable A : Type.
Implicit Types (s : CacheStorage.t A) (v : A).

(** Round trip within the time to live: after [set], a [get] of the same key
    returns the value as long as the clock is before the second clock
    reading of [set] plus 30 minutes, and null from then on, whatever the
    store held before. *)
Theorem set_then_get (now now' now2 : Z) (key : string) v s :
  (CacheStorage.get A now2 key (CacheStorage.set A now now' key v s)).1
  = if (now2 <? now' + 1800000)%Z then Some v else None.
Proof.
  unfold CacheStorage.get, CacheStorage.set. simpl.
  rewrite lookup_insert_eq. simpl. rewrite Z.gtb_ltb.
  change (30 * 60 * 1000)%Z with 1800000%Z.
  by destruct (now2 <? now' + 1800000)%Z.
Qed.

(** A [get] never removes an entry, expired or not; the map only grows. *)
Lemma step_keeps_entries (op : CacheStorage.Op A) s (k : string) :
  is_Some (CacheStorage.cache A s !! k) →
  is_Some (CacheStorage.cache A (CacheStorage.step A op s) !! k).
Proof.
  destruct op as [now now' key v|now key]; simpl.
  - intros H. destruct (decide (key = k)) as [->|Hne].
    + by rewrite lookup_insert_eq.
    + by rewrite lookup_insert_ne.
  - unfold CacheStorage.get.
    destruct (CacheStorage.cache A s !! key) as [e|]; [|done].
    by destruct (CacheStorage.expiry A e >? now)%Z.
Qed.

(** Entries are never purged: a key that is in the store stays in it through
    every sequence of [set] and [get], also after its entry has expired. *)
Theorem entries_are_never_removed (ops : list (CacheStorage.Op A)) s
    (k : string) :
  is_Some (CacheStorage.cache A s !! k) →
  is_Some (CacheStorage.cache A (CacheStorage.run A ops s) !! k).
Proof.
  revert s. induction ops as [|op ops IH]; intros s H; simpl; [done|].
  by apply IH, step_keeps_entries.
Qed.

Lemma step_stats (op : CacheStorage.Op A) s :
  let st := CacheStorage.stats A s in
  let st' := CacheStorage.stats A (CacheStorage.step A op s) in
  CacheStorage.totalRequests st' = (CacheStorage.totalRequests st + 1)%Z ∧
  (CacheStorage.hits st' + CacheStorage.misses st')%Z
  = (CacheStorage.hits st + CacheStorage.misses st + 1)%Z ∧
  CacheStorage.cacheSize st'
  = Z.of_nat (size (CacheStorage.cache A (CacheStorage.step A op s))).
Proof.
  destruct op as [now now' key v|now key]; simpl.
  - split_and!; try done. lia.
  - unfold CacheStorage.get.
    destruct (CacheStorage.cache A s !! key) as [e|]; simpl;
      [destruct (CacheStorage.expiry A e >? now)%Z; simpl|];
      split_and!; try done; lia.
Qed.

(** The statistics of a store that starts empty: after any sequence of
    operations [totalRequests] is the number of operations, writes included,
    it equals [hits + misses], and [cacheSize] is the number of entries of
    the map. *)
Theorem stats_count_every_operation (ops : list (CacheStorage.Op A)) :
  let st := CacheStorage.getStats A
              (CacheStorage.run A ops (CacheStorage.new A)) in
  CacheStorage.totalRequests st = Z.of_nat (Datatypes.length ops) ∧
  (CacheStorage.hits st + CacheStorage.misses st)%Z
  = CacheStorage.totalRequests st ∧
  CacheStorage.cacheSize st
  = Z.of_nat (size (CacheStorage.cache A
                      (CacheStorage.run A ops (CacheStorage.new A)))).
Proof.
  unfold CacheStorage.getStats.
  induction ops as [|op ops IH] using rev_ind; simpl.
  - split_and!; done.
  - unfold CacheStorage.run in *. rewrite foldl_snoc, length_app. simpl.
    destruct IH as (Ht & Hhm & _).
    destruct (step_stats op (foldl (λ s op, CacheStorage.step A op s)
                               (CacheStorage.new A) ops))
      as (Ht' & Hhm' & Hsz').
    simpl in *. split_and!; [lia|lia|done].
Qed.
End storage_facts.

Lemma entries_are_never_removed_witness :
  is_Some (CacheStorage.cache Z
             (CacheStorage.set Z 0 0 "k" 7%Z (CacheStorage.new Z)) !! "k") ∧
  (CacheStorage.get Z 1800000 "k"
     (CacheStorage.set Z 0 0 "k" 7%Z (CacheStorage.new Z))).1 = None ∧
  is_Some (CacheStorage.cache Z
             (CacheStorage.run Z [CacheStorage.OpGet Z 1800000 "k"]
                (CacheStorage.set Z 0 0 "k" 7%Z (CacheStorage.new Z)))
           !! "k").
Proof.
  assert (is_Some (CacheStorage.cache Z
                     (CacheStorage.set Z 0 0 "k" 7%Z (CacheStorage.new Z))
                   !! "k")) as H by (vm_compute; by eexists).
  split; [exact H|]. split; [vm_compute; reflexivity|].
  exact (entries_are_never_removed Z [CacheStorage.OpGet Z 1800000 "k"]
           _ "k" H).
Defined.

(** ** The invariants of the data model without re-insertion *)

Section spec_invariants.
Implicit Types (c : LRUCache.t) (l : list ref) (r : ref).








End spec_invariants.

